(** * Cycloidal drive calculator: profile curve, pin layout, derived outputs

    A shallow embedding of [Cycloidal_Calculator.py].  Python and NumPy
    floating-point numbers are idealised as exact real numbers, extended
    with the two infinities and NaN that NumPy's element-wise division
    produces on a zero divisor.  Rounding and overflow are not modelled,
    and neither is the sign of zero: the only divisor of the program is
    a difference [c - cos u], which is [+0.0] whenever it is zero.

    A test for zero is therefore a test on exact reals.  Where a
    quotient is [0 / 0] in real arithmetic, the program, whose sines,
    cosines and products are rounded, can hold a finite quotient or an
    infinity instead; at [t = 0], where nothing is rounded but
    [R / (e * N)], the two agree whenever that quotient is exact. *)

From Stdlib Require Import Reals Psatz ZArith List Bool QArith Qround Qabs.
Import ListNotations.

Open Scope R_scope.

(** A Python float.  The program calls the rolling-circle radius [R],
    so the type of reals is given a second name. *)
Abbreviation float := Rdefinitions.R (only parsing).

(** ** Python exceptions *)

Inductive exn : Type :=
| ZeroDivisionError
| ValueError
| IndexError.

Definition result (A : Type) : Type := (exn + A)%type.

Definition ret {A : Type} (a : A) : result A := inr a.

Definition bind {A B : Type} (m : result A) (k : A -> result B) : result B :=
  match m with
  | inl err => inl err
  | inr a => k a
  end.

Notation "x <- m ;; k" := (bind m (fun x => k))
  (at level 61, m at next level, right associativity).

Definition raises {A : Type} (m : result A) : Prop :=
  exists err, m = inl err.

Definition returns {A : Type} (m : result A) : Prop :=
  exists a, m = inr a.

(** ** Elements of a NumPy float array *)

Inductive npfloat : Type :=
| Fin (r : R)
| PInf
| NInf
| NaN.

(** The infinity carrying the sign of [r]; NaN when [r] is zero
    (as in [0 * inf] and [0 / 0]). *)
Definition inf_of_sign (r : R) : npfloat :=
  match total_order_T r 0 with
  | inleft (left _) => NInf
  | inleft (right _) => NaN
  | inright _ => PInf
  end.

Definition np_neg (a : npfloat) : npfloat :=
  match a with
  | Fin x => Fin (- x)
  | PInf => NInf
  | NInf => PInf
  | NaN => NaN
  end.

Definition np_add (a b : npfloat) : npfloat :=
  match a, b with
  | Fin x, Fin y => Fin (x + y)
  | NaN, _ | _, NaN => NaN
  | PInf, NInf | NInf, PInf => NaN
  | PInf, _ | _, PInf => PInf
  | NInf, _ | _, NInf => NInf
  end.

Definition np_sub (a b : npfloat) : npfloat := np_add a (np_neg b).

Definition np_mul (a b : npfloat) : npfloat :=
  match a, b with
  | Fin x, Fin y => Fin (x * y)
  | NaN, _ | _, NaN => NaN
  | Fin x, PInf | PInf, Fin x => inf_of_sign x
  | Fin x, NInf | NInf, Fin x => inf_of_sign (- x)
  | PInf, PInf | NInf, NInf => PInf
  | PInf, NInf | NInf, PInf => NaN
  end.

(** NumPy's element-wise [/]: a zero divisor gives a signed infinity, or
    NaN for [0 / 0], with a warning and no exception. *)
Definition np_div (a b : npfloat) : npfloat :=
  match a, b with
  | NaN, _ | _, NaN => NaN
  | Fin x, Fin y => if Req_dec_T y 0 then inf_of_sign x else Fin (x / y)
  | Fin _, PInf | Fin _, NInf => Fin 0
  | PInf, Fin y => if Rlt_dec y 0 then NInf else PInf
  | NInf, Fin y => if Rlt_dec y 0 then PInf else NInf
  | PInf, PInf | PInf, NInf | NInf, PInf | NInf, NInf => NaN
  end.

Definition np_cos (a : npfloat) : npfloat :=
  match a with
  | Fin x => Fin (cos x)
  | _ => NaN
  end.

Definition np_sin (a : npfloat) : npfloat :=
  match a with
  | Fin x => Fin (sin x)
  | _ => NaN
  end.

(** The one-argument arctangent, with range [-PI/2, PI/2]. *)
Definition np_arctan (a : npfloat) : npfloat :=
  match a with
  | Fin x => Fin (atan x)
  | PInf => Fin (PI / 2)
  | NInf => Fin (- (PI / 2))
  | NaN => NaN
  end.

Definition is_finite (a : npfloat) : Prop :=
  match a with
  | Fin _ => True
  | _ => False
  end.

(** IEEE comparison [==]: NaN is equal to nothing, itself included. *)
Definition np_eq (a b : npfloat) : Prop :=
  match a, b with
  | Fin x, Fin y => x = y
  | PInf, PInf | NInf, NInf => True
  | _, _ => False
  end.

(** ** Arrays and broadcasting *)

Definition ndarray : Type := list npfloat.

Fixpoint zip_with {A B C : Type} (f : A -> B -> C) (l : list A) (m : list B)
  : list C :=
  match l, m with
  | a :: l', b :: m' => f a b :: zip_with f l' m'
  | _, _ => []
  end.

(** scalar (op) array *)
Definition s_mul (k : R) (a : ndarray) : ndarray := map (np_mul (Fin k)) a.
Definition s_add (k : R) (a : ndarray) : ndarray := map (np_add (Fin k)) a.
Definition s_sub (k : R) (a : ndarray) : ndarray := map (np_sub (Fin k)) a.

(** array (op) array *)
Definition a_add : ndarray -> ndarray -> ndarray := zip_with np_add.
Definition a_sub : ndarray -> ndarray -> ndarray := zip_with np_sub.
Definition a_div : ndarray -> ndarray -> ndarray := zip_with np_div.

Definition a_cos : ndarray -> ndarray := map np_cos.
Definition a_sin : ndarray -> ndarray := map np_sin.
Definition a_arctan : ndarray -> ndarray := map np_arctan.

(** ** [np.linspace] *)

(** [y[-1] = v] on a non-empty array. *)
Fixpoint set_last {A : Type} (l : list A) (v : A) : list A :=
  match l with
  | [] => []
  | [_] => [v]
  | a :: l' => a :: set_last l' v
  end.

(** [np.arange(0, num)] as floats. *)
Definition arange (num : Z) : list R := map INR (seq 0 (Z.to_nat num)).

(** The values of [np.linspace(start, stop, num, endpoint)] for a
    non-negative [num]. *)
Definition linspace_values (start stop : R) (num : Z) (endpoint : bool)
  : list R :=
  let div := if endpoint then (num - 1)%Z else num in
  let delta := stop - start in
  let y := arange num in
  let y :=
    if (0 <? div)%Z then
      let step := delta / IZR div in
      if Req_dec_T step 0
      then map (fun v => v / IZR div * delta) y
      else map (fun v => v * step) y
    else map (fun v => v * delta) y in
  let y := map (fun v => v + start) y in
  if endpoint && (1 <? num)%Z then set_last y stop else y.

Definition linspace (start stop : R) (num : Z) (endpoint : bool)
  : result ndarray :=
  if (num <? 0)%Z then inl ValueError
  else ret (map Fin (linspace_values start stop num endpoint)).

(** ** Scalar (Python-level) division *)

Definition py_div (a b : R) : result R :=
  if Req_dec_T b 0 then inl ZeroDivisionError else ret (a / b).

(** ** [cycloidal_disk_shape] *)

Definition cycloidal_disk_shape (R Rr e : float) (N : Z) (num_points : Z)
  : result (ndarray * ndarray) :=
  t <- linspace 0 (2 * PI) num_points true ;;
  c <- py_div R (e * IZR N) ;;
  let x :=
    a_sub
      (a_sub (s_mul R (a_cos t))
             (s_mul Rr
                (a_cos
                   (a_add t
                      (a_arctan
                         (a_div (a_sin (s_mul (IZR (1 - N)) t))
                                (s_sub c (a_cos (s_mul (IZR (1 - N)) t)))))))))
      (s_mul e (a_cos (s_mul (IZR N) t))) in
  c' <- py_div R (e * IZR N) ;;
  let y :=
    a_add
      (a_add (s_mul (- R) (a_sin t))
             (s_mul Rr
                (a_sin
                   (a_add t
                      (a_arctan
                         (a_div (a_sin (s_mul (IZR (1 - N)) t))
                                (s_sub c' (a_cos (s_mul (IZR (1 - N)) t)))))))))
      (s_mul e (a_sin (s_mul (IZR N) t))) in
  ret (x, y).

(** ** Outer pins, as laid out and drawn in [main] *)

Record circle : Type := Circle {
  circle_x : npfloat;
  circle_y : npfloat;
  circle_radius : R
}.

(** [a[i]] for a non-negative index. *)
Definition getitem (a : ndarray) (i : nat) : result npfloat :=
  match nth_error a i with
  | Some v => ret v
  | None => inl IndexError
  end.

(** [range(N)]: empty when [N] is not positive. *)
Definition range (N : Z) : list nat := seq 0 (Z.to_nat N).

Fixpoint for_each {A B : Type} (f : A -> result B) (l : list A)
  : result (list B) :=
  match l with
  | [] => ret []
  | a :: l' => b <- f a ;; bs <- for_each f l' ;; ret (b :: bs)
  end.

Definition pin_angles (N : Z) : result ndarray :=
  linspace 0 (2 * PI) N false.

Definition layout_pins (R dp : float) (N : Z) : result (list circle) :=
  let center_x := 0 in
  let center_y := 0 in
  angles <- pin_angles N ;;
  let pin_x := s_add center_x (s_mul R (a_cos angles)) in
  let pin_y := s_add center_y (s_mul R (a_sin angles)) in
  for_each (fun i =>
              px <- getitem pin_x i ;;
              py <- getitem pin_y i ;;
              ret (Circle px py (dp / 2)))
           (range N).

(** ** Derived outputs of [main]

    Only [+], [*], [/] and [round] occur here, so the floats are
    idealised as exact rationals and the definitions compute. *)

Module Derived.

Local Open Scope Q_scope.

(** Python 3 [round(x)] with one argument: nearest integer, ties to even. *)
Definition py_round (q : Q) : Z :=
  let f := Qfloor q in
  match Qcompare (q - inject_Z f) (1 # 2) with
  | Lt => f
  | Gt => (f + 1)%Z
  | Eq => if Z.even f then f else (f + 1)%Z
  end.

(** [int(N-1)] *)
Definition gear_reduction (N : Z) : Z := (N - 1)%Z.

(** [round((drp+2*e)*1000)/1000] *)
Definition disk_hole_diameter (drp e : Q) : Q :=
  inject_Z (py_round ((drp + 2 * e) * 1000)) / 1000.

End Derived.

(** ** The sampled parameter and the formula at one sample *)

(** The parameter set the profile generator is specified for. *)
Definition valid (R Rr e : float) (N num_points : Z) : Prop :=
  0 < R /\ 0 < Rr /\ 0 < e /\ (2 <= N)%Z /\ (2 <= num_points)%Z.

(** [t_i = 2 PI i / (num_points - 1)] *)
Definition sample_t (num_points : Z) (i : nat) : R :=
  2 * PI * INR i / IZR (num_points - 1).

(** The divisor under the arctangent. *)
Definition denominator (R e : float) (N : Z) (t : float) : float :=
  R / (e * IZR N) - cos (IZR (1 - N) * t).

(** One element of the array expressions of [cycloidal_disk_shape], as
    a function of the element [t] of the grid: the same operations in
    the same order, with NumPy's division and arctangent. *)
Definition phase (R e : float) (N : Z) (t : float) : npfloat :=
  np_add (Fin t)
    (np_arctan (np_div (Fin (sin (IZR (1 - N) * t)))
                       (Fin (denominator R e N t)))).

Definition profile_x (R Rr e : float) (N : Z) (t : float) : npfloat :=
  np_sub (np_sub (Fin (R * cos t)) (np_mul (Fin Rr) (np_cos (phase R e N t))))
         (Fin (e * cos (IZR N * t))).

Definition profile_y (R Rr e : float) (N : Z) (t : float) : npfloat :=
  np_add (np_add (Fin (- R * sin t)) (np_mul (Fin Rr) (np_sin (phase R e N t))))
         (Fin (e * sin (IZR N * t))).

(** The same formula in plain real arithmetic, as the specification
    writes it; meaningful where the denominator is not zero. *)
Definition real_phase (R e : float) (N : Z) (t : float) : float :=
  t + atan (sin ((1 - IZR N) * t) / (R / (e * IZR N) - cos ((1 - IZR N) * t))).

Definition real_x (R Rr e : float) (N : Z) (t : float) : float :=
  R * cos t - Rr * cos (real_phase R e N t) - e * cos (IZR N * t).

Definition real_y (R Rr e : float) (N : Z) (t : float) : float :=
  - R * sin t + Rr * sin (real_phase R e N t) + e * sin (IZR N * t).

(** The values [t = np.linspace(0.0, 2*np.pi, num_points)] holds. *)
Definition grid (num_points : Z) : list R :=
  linspace_values 0 (2 * PI) num_points true.

(** The angle of pin [i] among [N]: [i * 2 PI / N]. *)
Definition pin_angle (N : Z) (i : nat) : R :=
  2 * PI * INR i / IZR N.

(** Every coordinate of an array multiplied by [k]. *)
Definition scale (k : R) (a : ndarray) : ndarray := map (np_mul (Fin k)) a.

(** The first and the last point of a curve compare equal, coordinate by
    coordinate. *)
Definition closes (x y : ndarray) : Prop :=
  exists x0 y0 x1 y1,
    nth_error x 0 = Some x0 /\ nth_error y 0 = Some y0 /\
    nth_error x (length x - 1) = Some x1 /\
    nth_error y (length y - 1) = Some y1 /\
    np_eq x0 x1 /\ np_eq y0 y1.

(** ** The inputs and the calls of [main] *)

(** The upper end of the eccentricity slider,
    [float(np.floor(((D/N)/2.0)*10)/10)]; [D/N] is a division of Python
    scalars. *)
Definition eccentricity_max (D : float) (N : Z) : result float :=
  q <- py_div D (IZR N) ;;
  ret (IZR (Zfloor (q / 2 * 10)) / 10).

(** What the four sliders above the plot can hand to the rest of
    [main]: each value lies between its [min_value] and [max_value]. *)
Definition slider_inputs (D dp : float) (N : Z) (e : float) : Prop :=
  10 <= D <= 250 /\ 1 <= dp <= 20 /\ (2 <= N <= 150)%Z /\
  exists e_max, eccentricity_max D N = ret e_max /\ 5 / 100 <= e <= e_max.

(** The positions the sliders of D and e stop at: [min_value] plus a
    whole number of steps, of 0.5 and of 0.01. *)
Definition on_slider_steps (D e : float) : Prop :=
  exists a b : Z,
    (0 <= a)%Z /\ (0 <= b)%Z /\
    D = 10 + IZR a * (5 / 10) /\ e = 5 / 100 + IZR b * (1 / 100).

(** The geometry [main] computes from the slider values: the curve it
    plots and the circles it draws for the pins. *)
Definition main_geometry (D dp : float) (N : Z) (e : float)
  : result (ndarray * ndarray * list circle) :=
  let Rr := dp / 2 in
  let R := D / 2 in
  let num_points := 10000%Z in
  xy <- cycloidal_disk_shape R Rr e N num_points ;;
  pins <- layout_pins R dp N ;;
  ret (xy, pins).

(** The numbers [main] writes into the text of the equations. *)
Module Display.

Local Open Scope Q_scope.

(** Python [int(x)] on a float: truncation toward zero. *)
Definition py_int (q : Q) : Z :=
  if Qle_bool 0 q then Qfloor q else Qceiling q.

(** [str(int(R))], the radius shown in the equation of [x]. *)
Definition shown_R (R : Q) : Z := py_int R.

(** [str(int(-R))], the coefficient shown in the equation of [y]. *)
Definition shown_minus_R (R : Q) : Z := py_int (- R).

End Display.

(** The angle between two lobes of the disk: a turn divided by
    [N - 1]. *)
Definition lobe_angle (N : Z) : R := 2 * PI / IZR (N - 1).

(** * Properties *)

(** ** Lists *)

Section Lists.

Context {A B C : Type}.

Lemma zip_with_map (f : A -> B -> C) {T : Type} (g : T -> A) (h : T -> B)
      (l : list T) :
  zip_with f (map g l) (map h l) = map (fun a => f (g a) (h a)) l.
Proof.
  induction l as [|a l IH]; simpl; [reflexivity | now rewrite IH].
Qed.

Lemma length_set_last (l : list A) (v : A) :
  length (set_last l v) = length l.
Proof.
  induction l as [|a [|b l] IH]; simpl in *; auto.
Qed.

Lemma nth_error_set_last_before (l : list A) (v : A) (i : nat) :
  (S i < length l)%nat -> nth_error (set_last l v) i = nth_error l i.
Proof.
  revert i; induction l as [|a [|b l] IH]; intros i Hi; simpl in *; try lia.
  destruct i as [|i]; [reflexivity|].
  simpl. apply (IH i). lia.
Qed.

Lemma nth_error_set_last_at (l : list A) (v : A) (i : nat) :
  S i = length l -> nth_error (set_last l v) i = Some v.
Proof.
  revert i; induction l as [|a [|b l] IH]; intros i Hi; simpl in *; try lia.
  - now replace i with 0%nat by lia.
  - destruct i as [|i]; [lia|]. simpl. apply (IH i). lia.
Qed.

End Lists.

Lemma nth_error_seq (i n : nat) :
  (i < n)%nat -> nth_error (seq 0 n) i = Some i.
Proof.
  intros Hi. rewrite (nth_error_nth' _ 0%nat) by now rewrite length_seq.
  now rewrite seq_nth.
Qed.

Lemma length_arange (num : Z) : length (arange num) = Z.to_nat num.
Proof. unfold arange. now rewrite length_map, length_seq. Qed.

Lemma nth_error_arange (num : Z) (i : nat) :
  (Z.of_nat i < num)%Z -> nth_error (arange num) i = Some (INR i).
Proof.
  intros Hi. unfold arange.
  rewrite nth_error_map, nth_error_seq by lia. reflexivity.
Qed.

(** ** The sampling grid *)

Lemma length_linspace_values (start stop : R) (num : Z) (endpoint : bool) :
  length (linspace_values start stop num endpoint) = Z.to_nat num.
Proof.
  unfold linspace_values.
  destruct (endpoint && (1 <? num)%Z);
    destruct (0 <? _)%Z; try destruct (Req_dec_T _ 0);
    now rewrite ?length_set_last, !length_map, length_arange.
Qed.

Lemma length_grid (num : Z) : length (grid num) = Z.to_nat num.
Proof. apply length_linspace_values. Qed.

Lemma linspace_grid (num : Z) :
  (0 <= num)%Z -> linspace 0 (2 * PI) num true = ret (map Fin (grid num)).
Proof.
  intros Hn. unfold linspace. now destruct (Z.ltb_spec num 0); [lia|].
Qed.

Lemma IZR_pred_pos (num : Z) : (2 <= num)%Z -> 0 < IZR (num - 1).
Proof. intros H. apply IZR_lt. lia. Qed.

Lemma step_nonzero (num : Z) :
  (2 <= num)%Z -> (2 * PI - 0) / IZR (num - 1) <> 0.
Proof.
  intros Hn. pose proof PI_RGT_0. pose proof (IZR_pred_pos num Hn) as Hd.
  assert (0 < (2 * PI - 0) / IZR (num - 1))
    by (apply Rdiv_lt_0_compat; lra).
  lra.
Qed.

Lemma nth_error_grid (num : Z) (i : nat) :
  (2 <= num)%Z -> (Z.of_nat i < num)%Z ->
  nth_error (grid num) i = Some (sample_t num i).
Proof.
  intros Hn Hi. unfold grid, linspace_values, sample_t.
  pose proof (IZR_pred_pos num Hn) as Hd.
  destruct (Z.ltb_spec 0 (num - 1)); [|lia].
  destruct (Z.ltb_spec 1 num); [|lia].
  destruct (Req_dec_T _ 0) as [Hz|_]; [now apply step_nonzero in Hz|].
  simpl andb. cbv iota.
  destruct (Z.eq_dec (Z.of_nat i) (num - 1)) as [Hl|Hl].
  - rewrite nth_error_set_last_at
      by (rewrite !length_map, length_arange; lia).
    f_equal. rewrite INR_IZR_INZ, Hl. field. lra.
  - rewrite nth_error_set_last_before
      by (rewrite !length_map, length_arange; lia).
    rewrite !nth_error_map, nth_error_arange by lia. simpl.
    f_equal. field. lra.
Qed.

(** ** The vectorised expressions, element by element *)

Lemma py_div_ok (a b : R) : b <> 0 -> py_div a b = ret (a / b).
Proof. intros Hb. unfold py_div. now destruct (Req_dec_T b 0). Qed.

Lemma py_div_zero (a b : R) : b = 0 -> py_div a b = inl ZeroDivisionError.
Proof. intros Hb. unfold py_div. now destruct (Req_dec_T b 0). Qed.

Ltac fuse_arrays :=
  unfold a_sub, a_add, a_div, a_cos, a_sin, a_arctan, s_mul, s_sub, s_add;
  repeat (rewrite map_map || rewrite zip_with_map).

Lemma shape_elementwise (R Rr e : float) (N num : Z) :
  (0 <= num)%Z -> e * IZR N <> 0 ->
  cycloidal_disk_shape R Rr e N num
  = ret (map (profile_x R Rr e N) (grid num),
         map (profile_y R Rr e N) (grid num)).
Proof.
  intros Hn He. unfold cycloidal_disk_shape.
  rewrite linspace_grid by assumption. unfold bind at 1. unfold ret at 1.
  rewrite py_div_ok by assumption. unfold bind, ret.
  do 2 f_equal; fuse_arrays; reflexivity.
Qed.

(** ** One sample *)

Lemma nth_error_profile (f : float -> npfloat) (num : Z) (i : nat) :
  (2 <= num)%Z -> (Z.of_nat i < num)%Z ->
  nth_error (map f (grid num)) i = Some (f (sample_t num i)).
Proof.
  intros Hn Hi. now rewrite nth_error_map, nth_error_grid.
Qed.

Lemma np_div_nonzero (a b : R) : b <> 0 -> np_div (Fin a) (Fin b) = Fin (a / b).
Proof. intros Hb. simpl. now destruct (Req_dec_T b 0). Qed.

Lemma np_div_zero (a : R) : np_div (Fin a) (Fin 0) = inf_of_sign a.
Proof. simpl. now destruct (Req_dec_T 0 0). Qed.

Lemma phase_real (R e : float) (N : Z) (t : float) :
  denominator R e N t <> 0 -> phase R e N t = Fin (real_phase R e N t).
Proof.
  intros Hd. unfold phase. rewrite np_div_nonzero by assumption.
  unfold real_phase, denominator. rewrite minus_IZR. reflexivity.
Qed.

Lemma profile_x_real (R Rr e : float) (N : Z) (t : float) :
  denominator R e N t <> 0 ->
  profile_x R Rr e N t = Fin (real_x R Rr e N t).
Proof.
  intros Hd. unfold profile_x. rewrite phase_real by assumption.
  reflexivity.
Qed.

Lemma profile_y_real (R Rr e : float) (N : Z) (t : float) :
  denominator R e N t <> 0 ->
  profile_y R Rr e N t = Fin (real_y R Rr e N t).
Proof.
  intros Hd. unfold profile_y. rewrite phase_real by assumption.
  reflexivity.
Qed.

Lemma valid_divisor (R Rr e : float) (N num : Z) :
  valid R Rr e N num -> e * IZR N <> 0.
Proof.
  intros (_ & _ & He & HN & _).
  assert (2 <= IZR N) by now apply IZR_le.
  nra.
Qed.

(** The denominator is positive as soon as [e * N < R]: the range the
    sliders of [main] allow, its upper end excepted. *)
Lemma denominator_pos (R e : float) (N : Z) (t : float) :
  0 < e * IZR N < R -> 0 < denominator R e N t.
Proof.
  intros [H0 H1]. unfold denominator.
  pose proof (COS_bound (IZR (1 - N) * t)) as [_ Hc].
  assert (1 < R / (e * IZR N)).
  { apply Rmult_lt_reg_r with (e * IZR N); [assumption|].
    unfold Rdiv. rewrite Rmult_assoc, Rinv_l by lra. lra. }
  lra.
Qed.

Lemma grid_4 : grid 4 = [0; 2 * PI / 3; 4 * PI / 3; 2 * PI].
Proof.
  unfold grid, linspace_values.
  destruct (Req_dec_T _ 0) as [Hz|_];
    [now apply (step_nonzero 4) in Hz; [|lia]|].
  simpl. f_equal; [field|]. f_equal; [field|]. f_equal; field.
Qed.

(** ** Whole turns *)

Lemma cos_turns (x : R) (k : Z) : cos (x + 2 * IZR k * PI) = cos x.
Proof.
  destruct (Z_le_gt_dec 0 k) as [Hk|Hk].
  - rewrite <- (Z2Nat.id k Hk), <- INR_IZR_INZ. apply cos_period.
  - rewrite <- (cos_period (x + 2 * IZR k * PI) (Z.to_nat (- k))).
    rewrite INR_IZR_INZ, Z2Nat.id, opp_IZR by lia. f_equal. ring.
Qed.

Lemma sin_turns (x : R) (k : Z) : sin (x + 2 * IZR k * PI) = sin x.
Proof.
  destruct (Z_le_gt_dec 0 k) as [Hk|Hk].
  - rewrite <- (Z2Nat.id k Hk), <- INR_IZR_INZ. apply sin_period.
  - rewrite <- (sin_period (x + 2 * IZR k * PI) (Z.to_nat (- k))).
    rewrite INR_IZR_INZ, Z2Nat.id, opp_IZR by lia. f_equal. ring.
Qed.

Lemma cos_mirror (m : Z) (t : R) :
  cos (IZR m * (2 * PI - t)) = cos (IZR m * t).
Proof.
  replace (IZR m * (2 * PI - t)) with (- (IZR m * t) + 2 * IZR m * PI) by ring.
  now rewrite cos_turns, cos_neg.
Qed.

Lemma sin_mirror (m : Z) (t : R) :
  sin (IZR m * (2 * PI - t)) = - sin (IZR m * t).
Proof.
  replace (IZR m * (2 * PI - t)) with (- (IZR m * t) + 2 * IZR m * PI) by ring.
  now rewrite sin_turns, sin_neg.
Qed.

Lemma cos_mirror1 (t : R) : cos (2 * PI - t) = cos t.
Proof. generalize (cos_mirror 1 t). now rewrite !Rmult_1_l. Qed.

Lemma sin_mirror1 (t : R) : sin (2 * PI - t) = - sin t.
Proof. generalize (sin_mirror 1 t). now rewrite !Rmult_1_l. Qed.

(** ** Negation through the element-wise operations *)

Lemma inf_of_sign_opp (r : R) : inf_of_sign (- r) = np_neg (inf_of_sign r).
Proof.
  unfold inf_of_sign.
  destruct (total_order_T (- r) 0) as [[H|H]|H];
    destruct (total_order_T r 0) as [[H'|H']|H']; try reflexivity; lra.
Qed.

Lemma np_div_opp (a b : R) :
  np_div (Fin (- a)) (Fin b) = np_neg (np_div (Fin a) (Fin b)).
Proof.
  simpl. destruct (Req_dec_T b 0).
  - apply inf_of_sign_opp.
  - simpl. f_equal. unfold Rdiv. ring.
Qed.

Lemma np_arctan_opp (a : npfloat) :
  np_arctan (np_neg a) = np_neg (np_arctan a).
Proof.
  destruct a; simpl; try reflexivity.
  - now rewrite atan_opp.
  - now rewrite Ropp_involutive.
Qed.

Lemma np_cos_mirror (t : R) (a : npfloat) :
  np_cos (np_add (Fin (2 * PI - t)) (np_neg a)) = np_cos (np_add (Fin t) a).
Proof.
  destruct a; simpl; try reflexivity.
  replace (2 * PI - t + - r) with (2 * PI - (t + r)) by ring.
  now rewrite cos_mirror1.
Qed.

Lemma np_sin_mirror (t : R) (a : npfloat) :
  np_sin (np_add (Fin (2 * PI - t)) (np_neg a))
  = np_neg (np_sin (np_add (Fin t) a)).
Proof.
  destruct a; simpl; try reflexivity.
  replace (2 * PI - t + - r) with (2 * PI - (t + r)) by ring.
  now rewrite sin_mirror1.
Qed.

Lemma denominator_mirror (R e : float) (N : Z) (t : float) :
  denominator R e N (2 * PI - t) = denominator R e N t.
Proof. unfold denominator. now rewrite cos_mirror. Qed.

(** [cos] and [sin] of an array element are a real number or NaN. *)
Lemma np_cos_cases (a : npfloat) : np_cos a = NaN \/ exists c, np_cos a = Fin c.
Proof. destruct a; simpl; eauto. Qed.

Lemma np_sin_cases (a : npfloat) : np_sin a = NaN \/ exists s, np_sin a = Fin s.
Proof. destruct a; simpl; eauto. Qed.

Lemma profile_x_mirror (R Rr e : float) (N : Z) (t : float) :
  profile_x R Rr e N (2 * PI - t) = profile_x R Rr e N t.
Proof.
  unfold profile_x, phase.
  rewrite denominator_mirror, sin_mirror, np_div_opp, np_arctan_opp.
  rewrite np_cos_mirror, cos_mirror, cos_mirror1.
  reflexivity.
Qed.

Lemma profile_y_mirror (R Rr e : float) (N : Z) (t : float) :
  profile_y R Rr e N (2 * PI - t) = np_neg (profile_y R Rr e N t).
Proof.
  unfold profile_y, phase.
  rewrite denominator_mirror, sin_mirror, np_div_opp, np_arctan_opp.
  rewrite np_sin_mirror, sin_mirror, sin_mirror1.
  destruct (np_sin_cases
              (np_add (Fin t)
                 (np_arctan (np_div (Fin (sin (IZR (1 - N) * t)))
                                    (Fin (denominator R e N t))))))
    as [-> | [s ->]]; simpl; [reflexivity|].
  f_equal. ring.
Qed.

Lemma sample_t_mirror (num : Z) (i : nat) :
  (2 <= num)%Z -> (Z.of_nat i < num)%Z ->
  sample_t num (Z.to_nat (num - 1) - i) = 2 * PI - sample_t num i.
Proof.
  intros Hn Hi. unfold sample_t.
  pose proof (IZR_pred_pos num Hn) as Hd.
  rewrite minus_INR by lia.
  rewrite (INR_IZR_INZ (Z.to_nat _)), Z2Nat.id by lia.
  field. lra.
Qed.

(** ** The profile, sample by sample *)

Lemma shape_valid (R Rr e : float) (N num : Z) :
  valid R Rr e N num ->
  cycloidal_disk_shape R Rr e N num
  = ret (map (profile_x R Rr e N) (grid num),
         map (profile_y R Rr e N) (grid num)).
Proof.
  intros Hv. pose proof (valid_divisor _ _ _ _ _ Hv) as He.
  destruct Hv as (_ & _ & _ & _ & Hn).
  apply shape_elementwise; [lia | assumption].
Qed.

Lemma scenario_denominator (t : float) : denominator 50 (1 / 2) 26 t <> 0.
Proof.
  apply Rgt_not_eq, Rlt_gt, denominator_pos. lra.
Qed.

(** C1.  For a valid parameter set the generator returns, and sample [i]
    is the formula evaluated at [t_i = 2 PI i / (num_points - 1)] with the
    one-argument arctangent; where the denominator is not zero this is the
    formula of the specification in plain real arithmetic.  For R = 50,
    Rr = 2, e = 0.5, N = 26 and four points the result is the formula at
    0, 2 PI / 3, 4 PI / 3 and 2 PI. *)
Theorem profile_formula :
  (forall (R Rr e : float) (N num_points : Z) (i : nat),
      valid R Rr e N num_points -> (Z.of_nat i < num_points)%Z ->
      exists x y,
        cycloidal_disk_shape R Rr e N num_points = ret (x, y) /\
        nth_error x i = Some (profile_x R Rr e N (sample_t num_points i)) /\
        nth_error y i = Some (profile_y R Rr e N (sample_t num_points i)) /\
        (denominator R e N (sample_t num_points i) <> 0 ->
         nth_error x i = Some (Fin (real_x R Rr e N (sample_t num_points i))) /\
         nth_error y i = Some (Fin (real_y R Rr e N (sample_t num_points i)))))
  /\ cycloidal_disk_shape 50 2 (1 / 2) 26 4
     = ret (map (fun t => Fin (real_x 50 2 (1 / 2) 26 t))
                [0; 2 * PI / 3; 4 * PI / 3; 2 * PI],
            map (fun t => Fin (real_y 50 2 (1 / 2) 26 t))
                [0; 2 * PI / 3; 4 * PI / 3; 2 * PI]).
Proof.
  split.
  - intros R Rr e N num i Hv Hi.
    exists (map (profile_x R Rr e N) (grid num)),
           (map (profile_y R Rr e N) (grid num)).
    assert (2 <= num)%Z as Hn by apply Hv.
    rewrite !nth_error_profile by assumption.
    repeat split; try reflexivity.
    + now apply shape_valid.
    + now rewrite profile_x_real.
    + now rewrite profile_y_real.
  - rewrite shape_elementwise by (lra || lia).
    rewrite grid_4. unfold ret. do 2 f_equal.
    + apply map_ext. intros t. apply profile_x_real, scenario_denominator.
    + apply map_ext. intros t. apply profile_y_real, scenario_denominator.
Qed.

Lemma scenario_valid : valid 50 2 (1 / 2) 26 4.
Proof. unfold valid. repeat split; (lra || lia). Qed.

Lemma profile_formula_witness :
  exists x y,
    cycloidal_disk_shape 50 2 (1 / 2) 26 4 = ret (x, y) /\
    nth_error x 1 = Some (Fin (real_x 50 2 (1 / 2) 26 (sample_t 4 1))) /\
    nth_error y 1 = Some (Fin (real_y 50 2 (1 / 2) 26 (sample_t 4 1))).
Proof.
  destruct (proj1 profile_formula 50 2 (1 / 2) 26%Z 4%Z 1%nat scenario_valid)
    as (x & y & Hs & _ & _ & Hr); [lia|].
  exists x, y. split; [exact Hs|].
  apply Hr, scenario_denominator.
Defined.

(** ** The closing point *)

Lemma sample_t_first (num : Z) : sample_t num 0 = 0.
Proof. unfold sample_t. simpl. unfold Rdiv. ring. Qed.

Lemma sample_t_last (num : Z) :
  (2 <= num)%Z -> sample_t num (Z.to_nat num - 1) = 2 * PI.
Proof.
  intros Hn. unfold sample_t. pose proof (IZR_pred_pos num Hn).
  rewrite INR_IZR_INZ. replace (Z.of_nat (Z.to_nat num - 1)) with (num - 1)%Z
    by lia.
  field. lra.
Qed.

Lemma sample_t_step (num : Z) (i : nat) :
  sample_t num (S i) - sample_t num i = 2 * PI / IZR (num - 1).
Proof. unfold sample_t. rewrite S_INR. unfold Rdiv. ring. Qed.

Lemma denominator_0 (R e : float) (N : Z) :
  denominator R e N 0 = R / (e * IZR N) - 1.
Proof. unfold denominator. now rewrite Rmult_0_r, cos_0. Qed.

Lemma denominator_0_nonzero (R e : float) (N : Z) :
  e * IZR N <> 0 -> R <> e * IZR N -> denominator R e N 0 <> 0.
Proof.
  intros He Hr Hd. rewrite denominator_0 in Hd. apply Hr.
  assert (R / (e * IZR N) = 1) as H1 by lra.
  apply (f_equal (fun v => v * (e * IZR N))) in H1.
  unfold Rdiv in H1. rewrite Rmult_assoc, Rinv_l in H1 by assumption. lra.
Qed.

Lemma real_y_0 (R Rr e : float) (N : Z) : real_y R Rr e N 0 = 0.
Proof.
  unfold real_y, real_phase.
  rewrite !Rmult_0_r, sin_0. unfold Rdiv at 1. rewrite Rmult_0_l, atan_0.
  rewrite Rplus_0_r, sin_0. ring.
Qed.

(** [0 / 0] under the arctangent: both coordinates are NaN. *)
Lemma profile_nan (R Rr e : float) (N : Z) (t : float) :
  denominator R e N t = 0 -> sin (IZR (1 - N) * t) = 0 ->
  profile_x R Rr e N t = NaN /\ profile_y R Rr e N t = NaN.
Proof.
  intros Hd Hs. unfold profile_x, profile_y, phase.
  rewrite Hd, Hs, np_div_zero. unfold inf_of_sign.
  destruct (total_order_T 0 0) as [[H|H]|H]; try lra.
  split; reflexivity.
Qed.

Lemma closes_valid (R Rr e : float) (N num : Z) :
  valid R Rr e N num -> R <> e * IZR N ->
  closes (map (profile_x R Rr e N) (grid num))
         (map (profile_y R Rr e N) (grid num)).
Proof.
  intros Hv Hr. pose proof (valid_divisor _ _ _ _ _ Hv) as He.
  assert (2 <= num)%Z as Hn by apply Hv.
  pose proof (denominator_0_nonzero R e N He Hr) as Hd.
  exists (Fin (real_x R Rr e N 0)), (Fin (real_y R Rr e N 0)),
         (Fin (real_x R Rr e N 0)), (np_neg (Fin (real_y R Rr e N 0))).
  rewrite !length_map, length_grid.
  rewrite !nth_error_profile by lia.
  rewrite sample_t_first, sample_t_last by assumption.
  replace (2 * PI) with (2 * PI - 0) by ring.
  rewrite profile_x_mirror, profile_y_mirror.
  rewrite profile_x_real, profile_y_real by assumption.
  repeat split; try reflexivity.
  simpl. rewrite real_y_0. ring.
Qed.

(** C2, as the program has it.  For a valid parameter set the generator
    returns two arrays of exactly [num_points] elements, aligned by
    index on the samples [t_i], which start at 0, end at [2 PI] and are
    [2 PI / (num_points - 1)] apart; the first and the last point are
    equal whenever [R <> e * N], that is whenever the denominator is not
    zero at [t = 0]. *)
Theorem profile_length_and_closure (R Rr e : float) (N num_points : Z) :
  valid R Rr e N num_points ->
  exists x y,
    cycloidal_disk_shape R Rr e N num_points = ret (x, y) /\
    length x = Z.to_nat num_points /\ length y = Z.to_nat num_points /\
    (forall i, (Z.of_nat i < num_points)%Z ->
       nth_error x i = Some (profile_x R Rr e N (sample_t num_points i)) /\
       nth_error y i = Some (profile_y R Rr e N (sample_t num_points i))) /\
    sample_t num_points 0 = 0 /\
    sample_t num_points (Z.to_nat num_points - 1) = 2 * PI /\
    (forall i, sample_t num_points (S i) - sample_t num_points i
               = 2 * PI / IZR (num_points - 1)) /\
    (R <> e * IZR N -> closes x y).
Proof.
  intros Hv. assert (2 <= num_points)%Z as Hn by apply Hv.
  exists (map (profile_x R Rr e N) (grid num_points)),
         (map (profile_y R Rr e N) (grid num_points)).
  split; [now apply shape_valid|].
  rewrite !length_map, length_grid.
  repeat split.
  - now apply nth_error_profile.
  - now apply nth_error_profile.
  - apply sample_t_first.
  - now apply sample_t_last.
  - apply sample_t_step.
  - now apply closes_valid.
Qed.

Lemma nan_valid : valid 2 1 1 2 2.
Proof. unfold valid. repeat split; (lra || lia). Qed.

Lemma profile_length_and_closure_witness :
  exists x y,
    cycloidal_disk_shape 50 2 (1 / 2) 26 4 = ret (x, y) /\
    length x = 4%nat /\ length y = 4%nat /\ closes x y.
Proof.
  destruct (profile_length_and_closure 50 2 (1 / 2) 26 4 scenario_valid)
    as (x & y & Hs & Hx & Hy & _ & _ & _ & _ & Hc).
  exists x, y. repeat split; try assumption.
  apply Hc. simpl. lra.
Defined.

(** C2 as stated fails: with R = 2, Rr = 1, e = 1, N = 2 and two points,
    a valid parameter set, the first point is [0 / 0] under the
    arctangent, so it is NaN and compares equal to nothing. *)
Lemma closure_counterexample :
  valid 2 1 1 2 2 /\
  exists x y,
    cycloidal_disk_shape 2 1 1 2 2 = ret (x, y) /\
    nth_error x 0 = Some NaN /\ nth_error y 0 = Some NaN /\
    ~ closes x y.
Proof.
  split; [exact nan_valid|].
  exists (map (profile_x 2 1 1 2) (grid 2)), (map (profile_y 2 1 1 2) (grid 2)).
  assert (profile_x 2 1 1 2 0 = NaN /\ profile_y 2 1 1 2 0 = NaN) as [Hx Hy].
  { apply profile_nan.
    - rewrite denominator_0. field.
    - now rewrite Rmult_0_r, sin_0. }
  assert (nth_error (map (profile_x 2 1 1 2) (grid 2)) 0 = Some NaN) as Hx0.
  { rewrite nth_error_profile by lia. now rewrite sample_t_first, Hx. }
  assert (nth_error (map (profile_y 2 1 1 2) (grid 2)) 0 = Some NaN) as Hy0.
  { rewrite nth_error_profile by lia. now rewrite sample_t_first, Hy. }
  repeat split; try assumption.
  - apply shape_valid, nan_valid.
  - intros (x0 & y0 & x1 & y1 & H0 & _ & _ & _ & He & _).
    rewrite Hx0 in H0. injection H0 as <-. exact He.
Qed.

(** ** Mirror symmetry *)

(** C9.  For a valid parameter set and every [t], the formula gives the
    same [x] and the opposite [y] at [2 PI - t] and at [t] (a NaN
    sample mirrors a NaN sample); in plain real arithmetic wherever the
    denominator is not zero; and in the returned arrays, sample
    [num_points - 1 - i] is the mirror image of sample [i]. *)
Theorem profile_mirror_symmetry (R Rr e : float) (N num_points : Z) :
  valid R Rr e N num_points ->
  (forall t : float,
      profile_x R Rr e N (2 * PI - t) = profile_x R Rr e N t /\
      profile_y R Rr e N (2 * PI - t) = np_neg (profile_y R Rr e N t)) /\
  (forall t : float,
      denominator R e N t <> 0 ->
      real_x R Rr e N (2 * PI - t) = real_x R Rr e N t /\
      real_y R Rr e N (2 * PI - t) = - real_y R Rr e N t) /\
  exists x y,
    cycloidal_disk_shape R Rr e N num_points = ret (x, y) /\
    forall i, (Z.of_nat i < num_points)%Z ->
      nth_error x (Z.to_nat (num_points - 1) - i) = nth_error x i /\
      nth_error y (Z.to_nat (num_points - 1) - i)
      = option_map np_neg (nth_error y i).
Proof.
  intros Hv. assert (2 <= num_points)%Z as Hn by apply Hv.
  split; [|split].
  - intros t. split; [apply profile_x_mirror | apply profile_y_mirror].
  - intros t Hd.
    assert (denominator R e N (2 * PI - t) <> 0) as Hd'
        by now rewrite denominator_mirror.
    pose proof (profile_x_mirror R Rr e N t) as Hx.
    pose proof (profile_y_mirror R Rr e N t) as Hy.
    rewrite !profile_x_real in Hx by assumption.
    rewrite !profile_y_real in Hy by assumption.
    simpl in Hy. split; congruence.
  - exists (map (profile_x R Rr e N) (grid num_points)),
           (map (profile_y R Rr e N) (grid num_points)).
    split; [now apply shape_valid|].
    intros i Hi.
    rewrite !nth_error_profile by lia. simpl.
    rewrite sample_t_mirror by assumption.
    now rewrite profile_x_mirror, profile_y_mirror.
Qed.

Lemma profile_mirror_symmetry_witness :
  real_x 50 2 (1 / 2) 26 (2 * PI - 1) = real_x 50 2 (1 / 2) 26 1 /\
  real_y 50 2 (1 / 2) 26 (2 * PI - 1) = - real_y 50 2 (1 / 2) 26 1.
Proof.
  apply (proj1 (proj2 (profile_mirror_symmetry 50 2 (1 / 2) 26 4
                         scenario_valid)) 1).
  apply scenario_denominator.
Defined.

(** ** Scaling *)

Lemma denominator_scale (k R e : float) (N : Z) (t : float) :
  k <> 0 -> e * IZR N <> 0 ->
  denominator (k * R) (k * e) N t = denominator R e N t.
Proof.
  intros Hk He. unfold denominator. f_equal.
  assert (e <> 0) by (intros ->; apply He; ring).
  assert (IZR N <> 0) by (intros HN; apply He; rewrite HN; ring).
  now field.
Qed.

Lemma phase_scale (k R e : float) (N : Z) (t : float) :
  k <> 0 -> e * IZR N <> 0 -> phase (k * R) (k * e) N t = phase R e N t.
Proof. intros Hk He. unfold phase. now rewrite denominator_scale. Qed.

Lemma profile_x_scale (k R Rr e : float) (N : Z) (t : float) :
  k <> 0 -> e * IZR N <> 0 ->
  profile_x (k * R) (k * Rr) (k * e) N t
  = np_mul (Fin k) (profile_x R Rr e N t).
Proof.
  intros Hk He. unfold profile_x. rewrite phase_scale by assumption.
  destruct (np_cos_cases (phase R e N t)) as [-> | [c ->]]; simpl;
    [reflexivity|].
  f_equal. ring.
Qed.

Lemma profile_y_scale (k R Rr e : float) (N : Z) (t : float) :
  k <> 0 -> e * IZR N <> 0 ->
  profile_y (k * R) (k * Rr) (k * e) N t
  = np_mul (Fin k) (profile_y R Rr e N t).
Proof.
  intros Hk He. unfold profile_y. rewrite phase_scale by assumption.
  destruct (np_sin_cases (phase R e N t)) as [-> | [s ->]]; simpl;
    [reflexivity|].
  f_equal. ring.
Qed.

(** C7.  Scaling R, Rr and e of a valid parameter set by the same
    positive factor [k], with N and the number of points unchanged,
    multiplies every output coordinate by [k]. *)
Theorem profile_scaling (k R Rr e : float) (N num_points : Z) :
  valid R Rr e N num_points -> 0 < k ->
  exists x y,
    cycloidal_disk_shape R Rr e N num_points = ret (x, y) /\
    cycloidal_disk_shape (k * R) (k * Rr) (k * e) N num_points
    = ret (scale k x, scale k y).
Proof.
  intros Hv Hk. pose proof (valid_divisor _ _ _ _ _ Hv) as He.
  assert (k <> 0) as Hk0 by lra.
  assert (valid (k * R) (k * Rr) (k * e) N num_points) as Hv'.
  { destruct Hv as (HR & HRr & He' & HN & Hn).
    repeat split; try assumption; now apply Rmult_lt_0_compat. }
  exists (map (profile_x R Rr e N) (grid num_points)),
         (map (profile_y R Rr e N) (grid num_points)).
  split; [now apply shape_valid|].
  rewrite shape_valid by assumption.
  unfold scale, ret. rewrite !map_map.
  apply f_equal, f_equal2; apply map_ext; intros t.
  - now apply profile_x_scale.
  - now apply profile_y_scale.
Qed.

Lemma profile_scaling_witness :
  exists x y,
    cycloidal_disk_shape 50 2 (1 / 2) 26 4 = ret (x, y) /\
    cycloidal_disk_shape (3 * 50) (3 * 2) (3 * (1 / 2)) 26 4
    = ret (scale 3 x, scale 3 y).
Proof.
  apply (profile_scaling 3 50 2 (1 / 2) 26 4 scenario_valid). lra.
Defined.

(** ** Errors and zero denominators *)

Lemma shape_negative_count (R Rr e : float) (N num : Z) :
  (num < 0)%Z -> cycloidal_disk_shape R Rr e N num = inl ValueError.
Proof.
  intros Hn. unfold cycloidal_disk_shape, linspace.
  now destruct (Z.ltb_spec num 0); [|lia].
Qed.

Lemma shape_zero_divisor (R Rr e : float) (N num : Z) :
  (0 <= num)%Z -> e * IZR N = 0 ->
  cycloidal_disk_shape R Rr e N num = inl ZeroDivisionError.
Proof.
  intros Hn He. unfold cycloidal_disk_shape.
  rewrite linspace_grid by assumption. unfold bind at 1. unfold ret at 1.
  now rewrite py_div_zero.
Qed.

(** C6, as the program has it.  The generator checks none of its
    preconditions.  It raises [ValueError] when the number of points is
    negative, otherwise [ZeroDivisionError] when [e * N] is zero, and in
    every other case it returns two arrays of [num_points] elements,
    whatever the signs of R, Rr and e and however small N is. *)
Theorem shape_error_cases (R Rr e : float) (N num_points : Z) :
  ((num_points < 0)%Z ->
   cycloidal_disk_shape R Rr e N num_points = inl ValueError) /\
  ((0 <= num_points)%Z -> e * IZR N = 0 ->
   cycloidal_disk_shape R Rr e N num_points = inl ZeroDivisionError) /\
  ((0 <= num_points)%Z -> e * IZR N <> 0 ->
   exists x y,
     cycloidal_disk_shape R Rr e N num_points = ret (x, y) /\
     length x = Z.to_nat num_points /\ length y = Z.to_nat num_points).
Proof.
  split; [|split].
  - apply shape_negative_count.
  - apply shape_zero_divisor.
  - intros Hn He.
    exists (map (profile_x R Rr e N) (grid num_points)),
           (map (profile_y R Rr e N) (grid num_points)).
    rewrite !length_map, length_grid.
    repeat split. now apply shape_elementwise.
Qed.

Lemma shape_error_cases_witness :
  cycloidal_disk_shape 1 1 1 2 (-1) = inl ValueError /\
  cycloidal_disk_shape 1 1 0 2 2 = inl ZeroDivisionError /\
  exists x y,
    cycloidal_disk_shape (-1) (-1) (-1) 1 0 = ret (x, y) /\
    length x = 0%nat /\ length y = 0%nat.
Proof.
  split; [|split].
  - apply (proj1 (shape_error_cases 1 1 1 2 (-1))). lia.
  - apply (proj1 (proj2 (shape_error_cases 1 1 0 2 2))); [lia | simpl; lra].
  - apply (proj2 (proj2 (shape_error_cases (-1) (-1) (-1) 1 0)));
      [lia | simpl; lra].
Defined.

(** C6 as stated fails: a negative rolling-circle radius violates the
    preconditions, and the generator returns a result all the same. *)
Lemma invalid_parameter_counterexample :
  ~ valid (-1) 1 1 2 2 /\
  returns (cycloidal_disk_shape (-1) 1 1 2 2) /\
  ~ raises (cycloidal_disk_shape (-1) 1 1 2 2).
Proof.
  assert (returns (cycloidal_disk_shape (-1) 1 1 2 2)) as Hr.
  { unfold returns. rewrite shape_elementwise by (simpl; (lia || lra)).
    eexists. reflexivity. }
  split; [|split].
  - unfold valid. lra.
  - exact Hr.
  - intros [err Herr]. destruct Hr as [a Ha]. congruence.
Qed.

Lemma nan_first_sample :
  denominator 2 1 2 (sample_t 2 0) = 0 /\
  nth_error (map (profile_x 2 1 1 2) (grid 2)) 0 = Some NaN /\
  nth_error (map (profile_y 2 1 1 2) (grid 2)) 0 = Some NaN.
Proof.
  assert (denominator 2 1 2 (sample_t 2 0) = 0) as Hd.
  { rewrite sample_t_first, denominator_0. field. }
  assert (sin (IZR (1 - 2) * sample_t 2 0) = 0) as Hs.
  { now rewrite sample_t_first, Rmult_0_r, sin_0. }
  destruct (profile_nan 2 1 1 2 _ Hd Hs) as [Hx Hy].
  rewrite !nth_error_profile by lia. rewrite Hx, Hy. now repeat split.
Qed.

(** C5, as the program has it.  When the denominator is exactly zero at
    some sample of a valid parameter set, no numeric-domain error is
    surfaced: the generator raises nothing and returns its two arrays
    of [num_points] elements, as for any other valid input.  A NaN the
    division produces goes into the output as it is: for R = 2,
    Rr = 1, e = 1, N = 2 and two points the first sample is NaN in both
    coordinates. *)
Theorem zero_denominator_sample :
  (forall (R Rr e : float) (N num_points : Z) (i : nat),
      valid R Rr e N num_points -> (Z.of_nat i < num_points)%Z ->
      denominator R e N (sample_t num_points i) = 0 ->
      ~ raises (cycloidal_disk_shape R Rr e N num_points) /\
      exists x y,
        cycloidal_disk_shape R Rr e N num_points = ret (x, y) /\
        length x = Z.to_nat num_points /\ length y = Z.to_nat num_points)
  /\ exists x y,
       cycloidal_disk_shape 2 1 1 2 2 = ret (x, y) /\
       nth_error x 0 = Some NaN /\ nth_error y 0 = Some NaN.
Proof.
  split.
  - intros R Rr e N num i Hv _ _.
    pose proof (shape_valid _ _ _ _ _ Hv) as Hr. split.
    + intros [err Herr]. rewrite Hr in Herr. discriminate.
    + exists (map (profile_x R Rr e N) (grid num)),
             (map (profile_y R Rr e N) (grid num)).
      rewrite !length_map, length_grid. now repeat split.
  - exists (map (profile_x 2 1 1 2) (grid 2)), (map (profile_y 2 1 1 2) (grid 2)).
    split; [apply shape_valid, nan_valid | apply nan_first_sample].
Qed.

Lemma zero_denominator_sample_witness :
  ~ raises (cycloidal_disk_shape 2 1 1 2 2) /\
  exists x y,
    cycloidal_disk_shape 2 1 1 2 2 = ret (x, y) /\
    length x = 2%nat /\ length y = 2%nat.
Proof.
  apply (proj1 zero_denominator_sample 2 1 1 2%Z 2%Z 0%nat nan_valid);
    [lia | apply nan_first_sample].
Defined.

(** C5 as stated fails: with R = 2, Rr = 1, e = 1, N = 2 the denominator
    is zero at the first sample, and the generator raises nothing: it
    returns arrays whose first elements are NaN. *)
Lemma zero_denominator_counterexample :
  valid 2 1 1 2 2 /\
  denominator 2 1 2 (sample_t 2 0) = 0 /\
  ~ raises (cycloidal_disk_shape 2 1 1 2 2) /\
  exists x y,
    cycloidal_disk_shape 2 1 1 2 2 = ret (x, y) /\
    nth_error x 0 = Some NaN /\ nth_error y 0 = Some NaN.
Proof.
  assert (denominator 2 1 2 (sample_t 2 0) = 0) as Hd.
  { rewrite sample_t_first, denominator_0. field. }
  assert (sin (IZR (1 - 2) * sample_t 2 0) = 0) as Hs.
  { now rewrite sample_t_first, Rmult_0_r, sin_0. }
  destruct (profile_nan 2 1 1 2 _ Hd Hs) as [Hx Hy].
  pose proof (shape_valid _ _ _ _ _ nan_valid) as Hr.
  repeat split; try apply nan_valid; try exact Hd.
  - intros [err Herr]. rewrite Hr in Herr. discriminate.
  - exists (map (profile_x 2 1 1 2) (grid 2)), (map (profile_y 2 1 1 2) (grid 2)).
    rewrite !nth_error_profile by lia. rewrite Hx, Hy. now repeat split.
Qed.

(** ** The smallest pin count and eccentricity *)

Lemma profile_finite (R Rr e : float) (N : Z) (t : float) :
  denominator R e N t <> 0 ->
  is_finite (profile_x R Rr e N t) /\ is_finite (profile_y R Rr e N t).
Proof.
  intros Hd. rewrite profile_x_real, profile_y_real by assumption.
  now split.
Qed.

(** C8.  With N = 2, e = 0.05 and R at least 5 the denominator is
    nonzero at every [t], sampled or not; neither the scalar division
    [R / (e * N)] nor the element-wise one divides by zero, and every
    coordinate returned is finite. *)
Theorem minimum_pins_finite (R Rr : float) (num_points : Z) :
  5 <= R -> (0 <= num_points)%Z ->
  (forall t : float, denominator R (5 / 100) 2 t <> 0) /\
  (forall i, (2 <= num_points)%Z -> (Z.of_nat i < num_points)%Z ->
     denominator R (5 / 100) 2 (sample_t num_points i) <> 0) /\
  exists x y,
    cycloidal_disk_shape R Rr (5 / 100) 2 num_points = ret (x, y) /\
    length x = Z.to_nat num_points /\ length y = Z.to_nat num_points /\
    Forall is_finite x /\ Forall is_finite y.
Proof.
  intros HR Hn.
  assert (forall t : float, denominator R (5 / 100) 2 t <> 0) as Hd.
  { intros t. apply Rgt_not_eq, Rlt_gt, denominator_pos. lra. }
  split; [exact Hd|]. split; [intros i _ _; apply Hd|].
  exists (map (profile_x R Rr (5 / 100) 2) (grid num_points)),
         (map (profile_y R Rr (5 / 100) 2) (grid num_points)).
  rewrite !length_map, length_grid.
  repeat split.
  - apply shape_elementwise; [assumption | lra].
  - apply Forall_forall. intros v [t [<- _]]%in_map_iff.
    now apply profile_finite.
  - apply Forall_forall. intros v [t [<- _]]%in_map_iff.
    now apply profile_finite.
Qed.

Lemma minimum_pins_finite_witness :
  exists x y,
    cycloidal_disk_shape 5 1 (5 / 100) 2 4 = ret (x, y) /\
    Forall is_finite x /\ Forall is_finite y.
Proof.
  destruct (minimum_pins_finite 5 1 4) as (_ & _ & x & y & Hs & _ & _ & Hf);
    [lra | lia |].
  exists x, y. split; [exact Hs | exact Hf].
Defined.

(** ** Boundedness *)

(** A sum of three vectors of lengths [a], [b] and [c] is no longer
    than [a + b + c]. *)
Lemma dot_le_1 (u1 v1 u2 v2 : R) :
  u1 * u1 + v1 * v1 = 1 -> u2 * u2 + v2 * v2 = 1 -> u1 * u2 + v1 * v2 <= 1.
Proof.
  intros H1 H2.
  pose proof (Rle_0_sqr (u1 - u2)) as A. pose proof (Rle_0_sqr (v1 - v2)) as B.
  unfold Rsqr in A, B. lra.
Qed.

Lemma three_vectors (a b c u1 v1 u2 v2 u3 v3 : R) :
  0 <= a -> 0 <= b -> 0 <= c ->
  u1 * u1 + v1 * v1 = 1 -> u2 * u2 + v2 * v2 = 1 -> u3 * u3 + v3 * v3 = 1 ->
  (a * u1 + b * u2 + c * u3) * (a * u1 + b * u2 + c * u3)
  + (a * v1 + b * v2 + c * v3) * (a * v1 + b * v2 + c * v3)
  <= (a + b + c) * (a + b + c).
Proof.
  intros Ha Hb Hc H1 H2 H3.
  pose proof (dot_le_1 _ _ _ _ H1 H2) as D12.
  pose proof (dot_le_1 _ _ _ _ H1 H3) as D13.
  pose proof (dot_le_1 _ _ _ _ H2 H3) as D23.
  assert (0 <= a * b) as Pab by now apply Rmult_le_pos.
  assert (0 <= a * c) as Pac by now apply Rmult_le_pos.
  assert (0 <= b * c) as Pbc by now apply Rmult_le_pos.
  pose proof (Rmult_le_compat_l _ _ _ Pab D12) as E12.
  pose proof (Rmult_le_compat_l _ _ _ Pac D13) as E13.
  pose proof (Rmult_le_compat_l _ _ _ Pbc D23) as E23.
  replace ((a * u1 + b * u2 + c * u3) * (a * u1 + b * u2 + c * u3)
           + (a * v1 + b * v2 + c * v3) * (a * v1 + b * v2 + c * v3))
    with (a * a * (u1 * u1 + v1 * v1) + b * b * (u2 * u2 + v2 * v2)
          + c * c * (u3 * u3 + v3 * v3)
          + 2 * (a * b * (u1 * u2 + v1 * v2))
          + 2 * (a * c * (u1 * u3 + v1 * v3))
          + 2 * (b * c * (u2 * u3 + v2 * v3))) by ring.
  rewrite H1, H2, H3. lra.
Qed.

Lemma unit_cos_sin (a : R) : cos a * cos a + sin a * sin a = 1.
Proof. pose proof (sin2_cos2 a) as H. unfold Rsqr in H. lra. Qed.

Lemma real_point_bounded (R Rr e : float) (N : Z) (t : float) :
  0 <= R -> 0 <= Rr -> 0 <= e ->
  real_x R Rr e N t * real_x R Rr e N t + real_y R Rr e N t * real_y R Rr e N t
  <= (R + Rr + e) * (R + Rr + e).
Proof.
  intros HR HRr He. unfold real_x, real_y.
  set (p := real_phase R e N t). set (u := IZR N * t).
  replace (R * cos t - Rr * cos p - e * cos u)
    with (R * cos t + Rr * (- cos p) + e * (- cos u)) by ring.
  replace (- R * sin t + Rr * sin p + e * sin u)
    with (R * (- sin t) + Rr * sin p + e * sin u) by ring.
  apply three_vectors; try assumption.
  - pose proof (unit_cos_sin t). lra.
  - pose proof (unit_cos_sin p). lra.
  - pose proof (unit_cos_sin u). lra.
Qed.

Lemma norm_bounds (x y s : R) :
  0 <= s -> x * x + y * y <= s * s ->
  sqrt (x * x + y * y) <= s /\ Rabs x <= s /\ Rabs y <= s.
Proof.
  intros Hs H. split; [|split].
  - rewrite <- (sqrt_square s) by assumption. now apply sqrt_le_1_alt.
  - apply Rabs_le. split; nra.
  - apply Rabs_le. split; nra.
Qed.

(** C10.  For a valid parameter set whose denominator is nonzero at
    every sample, every returned point is finite and lies in the closed
    disk of radius [R + Rr + e] about the origin, so each coordinate is
    at most [R + Rr + e] in absolute value. *)
Theorem profile_bounded (R Rr e : float) (N num_points : Z) :
  valid R Rr e N num_points ->
  (forall i, (Z.of_nat i < num_points)%Z ->
     denominator R e N (sample_t num_points i) <> 0) ->
  exists x y,
    cycloidal_disk_shape R Rr e N num_points = ret (x, y) /\
    forall i, (Z.of_nat i < num_points)%Z ->
      exists xi yi,
        nth_error x i = Some (Fin xi) /\ nth_error y i = Some (Fin yi) /\
        sqrt (xi * xi + yi * yi) <= R + Rr + e /\
        Rabs xi <= R + Rr + e /\ Rabs yi <= R + Rr + e.
Proof.
  intros Hv Hd. assert (2 <= num_points)%Z as Hn by apply Hv.
  exists (map (profile_x R Rr e N) (grid num_points)),
         (map (profile_y R Rr e N) (grid num_points)).
  split; [now apply shape_valid|].
  intros i Hi. specialize (Hd i Hi).
  exists (real_x R Rr e N (sample_t num_points i)),
         (real_y R Rr e N (sample_t num_points i)).
  rewrite !nth_error_profile by assumption.
  rewrite profile_x_real, profile_y_real by assumption.
  split; [reflexivity|]. split; [reflexivity|].
  destruct Hv as (HR & HRr & He & _).
  apply norm_bounds; [lra|].
  apply real_point_bounded; lra.
Qed.

Lemma profile_bounded_witness :
  exists x y,
    cycloidal_disk_shape 50 2 (1 / 2) 26 4 = ret (x, y) /\
    exists xi yi,
      nth_error x 2 = Some (Fin xi) /\ nth_error y 2 = Some (Fin yi) /\
      sqrt (xi * xi + yi * yi) <= 50 + 2 + 1 / 2.
Proof.
  destruct (profile_bounded 50 2 (1 / 2) 26 4 scenario_valid)
    as (x & y & Hs & Hb).
  - intros i _. apply scenario_denominator.
  - exists x, y. split; [exact Hs|].
    destruct (Hb 2%nat) as (xi & yi & Hx & Hy & Hn & _); [lia|].
    exists xi, yi. now repeat split.
Defined.

(** ** Outer pins *)

Lemma for_each_ret {A B : Type} (f : A -> result B) (g : A -> B) (l : list A) :
  (forall a, In a l -> f a = ret (g a)) -> for_each f l = ret (map g l).
Proof.
  induction l as [|a l IH]; intros Hf; simpl; [reflexivity|].
  rewrite (Hf a) by now left. unfold bind at 1. unfold ret at 1.
  rewrite IH by (intros b Hb; apply Hf; now right).
  reflexivity.
Qed.

Lemma IZR_pos (N : Z) : (1 <= N)%Z -> 0 < IZR N.
Proof. intros H. apply IZR_lt. lia. Qed.

Lemma pin_angle_values (N : Z) :
  (1 <= N)%Z ->
  linspace_values 0 (2 * PI) N false
  = map (fun i => pin_angle N i) (seq 0 (Z.to_nat N)).
Proof.
  intros HN. unfold linspace_values. simpl andb. cbv iota zeta.
  pose proof (IZR_pos N HN) as Hp. pose proof PI_RGT_0.
  destruct (Z.ltb_spec 0 N); [|lia].
  destruct (Req_dec_T _ 0) as [Hz|_].
  { exfalso. assert (0 < (2 * PI - 0) / IZR N)
      by (apply Rdiv_lt_0_compat; lra). lra. }
  unfold arange. rewrite !map_map. apply map_ext. intros i.
  unfold pin_angle. field. lra.
Qed.

Lemma pin_angles_ret (N : Z) :
  (1 <= N)%Z ->
  pin_angles N = ret (map (fun i => Fin (pin_angle N i)) (seq 0 (Z.to_nat N))).
Proof.
  intros HN. unfold pin_angles, linspace.
  destruct (Z.ltb_spec N 0); [lia|].
  now rewrite pin_angle_values, map_map.
Qed.

(** The circle drawn for pin [i]. *)
Lemma layout_pins_ret (R dp : float) (N : Z) :
  (1 <= N)%Z ->
  layout_pins R dp N
  = ret (map (fun i => Circle (Fin (0 + R * cos (pin_angle N i)))
                              (Fin (0 + R * sin (pin_angle N i))) (dp / 2))
             (seq 0 (Z.to_nat N))).
Proof.
  intros HN. unfold layout_pins. rewrite pin_angles_ret by assumption.
  unfold bind at 1. unfold ret at 1. unfold range.
  apply for_each_ret. intros i [_ Hi]%in_seq.
  unfold getitem, s_add, s_mul, a_cos, a_sin. rewrite !map_map.
  rewrite !nth_error_map, nth_error_seq by lia.
  reflexivity.
Qed.

Lemma circle_ext (x x' y y' r r' : R) :
  x = x' -> y = y' -> r = r' ->
  Circle (Fin x) (Fin y) r = Circle (Fin x') (Fin y') r'.
Proof. now intros -> -> ->. Qed.

Lemma pin_angle_range (N : Z) (i : nat) :
  (Z.of_nat i < N)%Z -> 0 <= pin_angle N i < 2 * PI.
Proof.
  intros Hi. unfold pin_angle.
  assert (0 < IZR N) as Hp by (apply IZR_lt; lia).
  pose proof PI_RGT_0. pose proof (pos_INR i) as H0.
  assert (INR i < IZR N) as Hlt by (rewrite INR_IZR_INZ; now apply IZR_lt).
  split.
  - apply Rmult_le_pos; [|now left; apply Rinv_0_lt_compat]. nra.
  - apply Rmult_lt_reg_r with (IZR N); [assumption|].
    unfold Rdiv. rewrite Rmult_assoc, Rinv_l by lra. nra.
Qed.

(** C3.  For R > 0, a positive pin diameter and N >= 1 the layout has
    exactly N pins; pin [i] sits at angle [i * 2 PI / N], an angle of
    [0, 2 PI) that starts at 0 and grows by [2 PI / N] from one pin to
    the next; its centre is [(R cos, R sin)] of that angle, at distance
    R from the origin.  R = 50 and N = 4 give (50, 0), (0, 50),
    (-50, 0) and (0, -50). *)
Theorem pin_layout :
  (forall (R dp : float) (N : Z),
      0 < R -> 0 < dp -> (1 <= N)%Z ->
      exists angles pins,
        pin_angles N = ret angles /\ layout_pins R dp N = ret pins /\
        length angles = Z.to_nat N /\ length pins = Z.to_nat N /\
        pin_angle N 0 = 0 /\
        forall i, (Z.of_nat i < N)%Z ->
          nth_error angles i = Some (Fin (pin_angle N i)) /\
          0 <= pin_angle N i < 2 * PI /\
          pin_angle N (S i) - pin_angle N i = 2 * PI / IZR N /\
          exists x y,
            nth_error pins i = Some (Circle (Fin x) (Fin y) (dp / 2)) /\
            x = R * cos (pin_angle N i) /\ y = R * sin (pin_angle N i) /\
            sqrt (x * x + y * y) = R)
  /\ layout_pins 50 4 4
     = ret [Circle (Fin 50) (Fin 0) 2; Circle (Fin 0) (Fin 50) 2;
            Circle (Fin (-50)) (Fin 0) 2; Circle (Fin 0) (Fin (-50)) 2].
Proof.
  split.
  - intros R dp N HR Hdp HN.
    eexists _, _. split; [now apply pin_angles_ret|].
    split; [now apply layout_pins_ret|].
    rewrite !length_map, length_seq.
    split; [reflexivity|]. split; [reflexivity|].
    split; [unfold pin_angle, Rdiv; simpl; ring|].
    intros i Hi. rewrite !nth_error_map, nth_error_seq by lia. simpl.
    split; [reflexivity|]. split; [now apply pin_angle_range|].
    split; [unfold pin_angle; rewrite S_INR; unfold Rdiv; ring|].
    exists (R * cos (pin_angle N i)), (R * sin (pin_angle N i)).
    split; [f_equal; apply circle_ext; ring|].
    split; [reflexivity|]. split; [reflexivity|].
    replace (R * cos (pin_angle N i) * (R * cos (pin_angle N i))
             + R * sin (pin_angle N i) * (R * sin (pin_angle N i)))
      with (R * R * (cos (pin_angle N i) * cos (pin_angle N i)
                     + sin (pin_angle N i) * sin (pin_angle N i))) by ring.
    rewrite unit_cos_sin, Rmult_1_r. apply sqrt_square. lra.
  - rewrite layout_pins_ret by lia. simpl. unfold ret, pin_angle. simpl.
    replace (2 * PI * 0 / 4) with 0 by field.
    replace (2 * PI * 1 / 4) with (PI / 2) by field.
    replace (2 * PI * (1 + 1) / 4) with PI by field.
    replace (2 * PI * (1 + 1 + 1) / 4) with (3 * (PI / 2)) by field.
    rewrite cos_0, sin_0, cos_PI2, sin_PI2, cos_PI, sin_PI, cos_3PI2, sin_3PI2.
    apply f_equal.
    repeat (apply f_equal2; [apply circle_ext; lra|]). reflexivity.
Qed.

Lemma pin_layout_witness :
  exists angles pins,
    pin_angles 4 = ret angles /\ layout_pins 50 4 4 = ret pins /\
    length angles = 4%nat /\ length pins = 4%nat.
Proof.
  destruct (proj1 pin_layout 50 4 4%Z) as (a & p & Ha & Hp & La & Lp & _);
    [lra | lra | lia |].
  exists a, p. repeat split; assumption.
Defined.

(** ** Derived outputs *)

Module DerivedFacts.

Import Derived.
Local Open Scope Q_scope.

Lemma floor_fraction (q : Q) :
  0 <= q - inject_Z (Qfloor q) /\ q - inject_Z (Qfloor q) < 1.
Proof.
  pose proof (Qfloor_le q) as Hl. pose proof (Qlt_floor q) as Hu.
  rewrite inject_Z_plus in Hu. change (inject_Z 1) with 1 in Hu.
  split; lra.
Qed.

(** [round] returns an integer at most one half away. *)
Lemma py_round_near (q : Q) : Qabs (inject_Z (py_round q) - q) <= 1 # 2.
Proof.
  unfold py_round. destruct (floor_fraction q) as [H0 H1].
  apply Qabs_Qle_condition.
  destruct (Qcompare_spec (q - inject_Z (Qfloor q)) (1 # 2)) as [He|Hl|Hg].
  - destruct (Z.even (Qfloor q));
      rewrite ?inject_Z_plus; change (inject_Z 1) with 1; split; lra.
  - split; lra.
  - rewrite inject_Z_plus. change (inject_Z 1) with 1. split; lra.
Qed.

(** C4.  The gear reduction is [N - 1], 25 for N = 26.  The disk hole
    diameter is a whole number of thousandths, at most half a
    thousandth away from [drp + 2 e]: that sum rounded to three decimal
    places; 34.33 for a drive pin diameter of 33.33 and e = 0.5. *)
Theorem derived_outputs :
  (forall (N : Z) (drp e : Q),
      gear_reduction N = (N - 1)%Z /\
      (exists k : Z, disk_hole_diameter drp e == inject_Z k / 1000) /\
      Qabs (disk_hole_diameter drp e - (drp + 2 * e)) <= 1 # 2000)
  /\ gear_reduction 26 = 25%Z
  /\ disk_hole_diameter (3333 # 100) (1 # 2) == 3433 # 100.
Proof.
  split; [|split].
  - intros N drp e. split; [reflexivity|]. split.
    + exists (py_round ((drp + 2 * e) * 1000)). reflexivity.
    + unfold disk_hole_diameter.
      pose proof (py_round_near ((drp + 2 * e) * 1000)) as Hn.
      apply Qabs_Qle_condition in Hn. apply Qabs_Qle_condition.
      set (r := inject_Z (py_round ((drp + 2 * e) * 1000))) in *.
      assert (r / 1000 == r * (1 # 1000)) as -> by (unfold Qdiv; reflexivity).
      split; lra.
  - reflexivity.
  - vm_compute. reflexivity.
Qed.

End DerivedFacts.

(** * Further properties of the program *)

(** ** The eccentricity slider *)

Lemma eccentricity_max_ret (D : float) (N : Z) :
  IZR N <> 0 ->
  eccentricity_max D N = ret (IZR (Zfloor (D / IZR N / 2 * 10)) / 10).
Proof.
  intros HN. unfold eccentricity_max. now rewrite py_div_ok.
Qed.

Lemma five_D_over_N (D : float) (N : Z) :
  IZR N <> 0 -> D / IZR N / 2 * 10 = 5 * D / IZR N.
Proof. intros HN. now field. Qed.

(** X1.  The upper end of the eccentricity slider is a whole number of
    tenths, at most [R / N] for [R = D / 2] and less than a tenth below
    it. *)
Theorem eccentricity_max_bounds (D : float) (N : Z) :
  (1 <= N)%Z ->
  exists e_max (k : Z),
    eccentricity_max D N = ret e_max /\
    e_max = IZR k / 10 /\
    e_max <= D / 2 / IZR N /\ D / 2 / IZR N - 1 / 10 < e_max.
Proof.
  intros HN. pose proof (IZR_pos N HN) as Hp.
  exists (IZR (Zfloor (D / IZR N / 2 * 10)) / 10),
         (Zfloor (D / IZR N / 2 * 10)).
  split; [apply eccentricity_max_ret; lra|]. split; [reflexivity|].
  pose proof (Zfloor_bound (D / IZR N / 2 * 10)) as [Hl Hu].
  replace (D / 2 / IZR N) with (D / IZR N / 2 * 10 / 10) by (field; lra).
  split; lra.
Qed.

Lemma eccentricity_max_bounds_witness :
  exists e_max (k : Z),
    eccentricity_max 100 26 = ret e_max /\
    e_max = IZR k / 10 /\
    e_max <= 100 / 2 / 26 /\ 100 / 2 / 26 - 1 / 10 < e_max.
Proof. apply (eccentricity_max_bounds 100 26). lia. Defined.

Lemma slider_N_pos (N : Z) : (2 <= N <= 150)%Z -> 2 <= IZR N.
Proof. intros [H _]. now apply IZR_le. Qed.

(** X2.  The eccentricity slider has a value to offer, one between its
    minimum 0.05 and its maximum, exactly when [N <= 5 D]: for more
    pins than five per millimetre of diameter the maximum is 0. *)
Theorem eccentricity_range_nonempty (D dp : float) (N : Z) :
  10 <= D <= 250 -> 1 <= dp <= 20 -> (2 <= N <= 150)%Z ->
  (exists e, slider_inputs D dp N e) <-> IZR N <= 5 * D.
Proof.
  intros HD Hdp HN. pose proof (slider_N_pos N HN) as Hp.
  assert (IZR N <> 0) as Hnz by lra.
  pose proof (Zfloor_bound (D / IZR N / 2 * 10)) as [Hl Hu].
  rewrite five_D_over_N in Hl, Hu by assumption.
  split.
  - intros (e & _ & _ & _ & m & Hm & He).
    rewrite eccentricity_max_ret, five_D_over_N in Hm by assumption.
    injection Hm as <-.
    assert (0 < IZR (Zfloor (5 * D / IZR N))) as Hk by lra.
    apply lt_IZR in Hk.
    assert (1 <= IZR (Zfloor (5 * D / IZR N))) as H1 by (apply IZR_le; lia).
    assert (1 <= 5 * D / IZR N) as H2 by lra.
    apply (Rmult_le_compat_r (IZR N)) in H2; [|lra].
    unfold Rdiv in H2. rewrite Rmult_assoc, Rinv_l in H2 by assumption. lra.
  - intros Hle.
    exists (IZR (Zfloor (D / IZR N / 2 * 10)) / 10).
    repeat split; try tauto.
    eexists. split; [now apply eccentricity_max_ret|].
    split; [|lra].
    rewrite five_D_over_N by assumption.
    assert (1 <= Zfloor (5 * D / IZR N))%Z as H1.
    { apply Zfloor_lub. apply Rmult_le_reg_r with (IZR N); [lra|].
      unfold Rdiv. rewrite Rmult_assoc, Rinv_l by assumption. lra. }
    apply IZR_le in H1. lra.
Qed.

Lemma eccentricity_range_nonempty_witness :
  ~ exists e, slider_inputs 10 4 51 e.
Proof.
  intros H.
  apply (eccentricity_range_nonempty 10 4 51) in H; [lra | lra | lra | lia].
Defined.

(** ** [main] on the values of its sliders *)

Lemma slider_valid (D dp : float) (N : Z) (e : float) :
  slider_inputs D dp N e ->
  valid (D / 2) (dp / 2) e N 10000 /\ e * IZR N <= D / 2.
Proof.
  intros (HD & Hdp & HN & m & Hm & He).
  pose proof (slider_N_pos N HN) as Hp.
  destruct (eccentricity_max_bounds D N ltac:(lia))
    as (m' & k & Hm' & _ & Hle & _).
  rewrite Hm in Hm'. injection Hm' as <-.
  split.
  - unfold valid. repeat split; try lra; lia.
  - assert (e <= D / 2 / IZR N) as H by lra.
    apply (Rmult_le_compat_r (IZR N)) in H; [|lra].
    unfold Rdiv in H at 1. rewrite Rmult_assoc, Rinv_l in H by lra. lra.
Qed.

(** On the steps of the sliders [e * N] and [R] are whole numbers of
    hundredths, so they differ by a hundredth at least when they
    differ. *)
Lemma slider_steps_margin (D e : float) (N : Z) :
  on_slider_steps D e -> e * IZR N < D / 2 -> e * IZR N + 1 / 100 <= D / 2.
Proof.
  intros (a & b & _ & _ & -> & ->) Hlt.
  assert (IZR ((5 + b) * N) < IZR (500 + 25 * a)) as Hz.
  { rewrite mult_IZR, !plus_IZR, mult_IZR. lra. }
  apply lt_IZR in Hz.
  assert ((5 + b) * N + 1 <= 500 + 25 * a)%Z as Hz' by lia.
  apply IZR_le in Hz'.
  rewrite !plus_IZR, !mult_IZR, plus_IZR in Hz'. lra.
Qed.

Lemma denominator_margin (R e : float) (N : Z) (t : float) :
  0 < e * IZR N -> R <= 125 -> e * IZR N + 1 / 100 <= R ->
  1 / 12500 <= denominator R e N t.
Proof.
  intros H0 HR Hm. unfold denominator.
  pose proof (COS_bound (IZR (1 - N) * t)) as [_ Hc].
  assert (1 + 1 / 12500 <= R / (e * IZR N)).
  { apply Rmult_le_reg_r with (e * IZR N); [assumption|].
    replace (R / (e * IZR N) * (e * IZR N)) with R
      by (unfold Rdiv; rewrite Rmult_assoc, Rinv_l by lra; ring).
    lra. }
  lra.
Qed.

(** X3.  Whatever the sliders hold, [main] computes its geometry without an
    exception: a curve of 10000 points and N pin circles.  At every
    position of the sliders with [e * N < R] the denominator under the
    arctangent is at least 1/12500 at every [t], and every coordinate
    of the curve is finite. *)
Theorem main_geometry_returns (D dp : float) (N : Z) (e : float) :
  slider_inputs D dp N e ->
  exists x y pins,
    main_geometry D dp N e = ret (x, y, pins) /\
    length x = Z.to_nat 10000 /\ length y = Z.to_nat 10000 /\
    length pins = Z.to_nat N /\
    (on_slider_steps D e -> e * IZR N < D / 2 ->
     (forall t : float, 1 / 12500 <= denominator (D / 2) e N t) /\
     Forall is_finite x /\ Forall is_finite y).
Proof.
  intros Hs. destruct (slider_valid _ _ _ _ Hs) as [Hv Hle].
  assert (2 <= N)%Z as HN by apply Hv.
  assert (0 < e * IZR N) as Hpos.
  { destruct Hv as (_ & _ & He & HN' & _).
    apply Rmult_lt_0_compat; [assumption | apply IZR_lt; lia]. }
  assert (D / 2 <= 125) as HD by (destruct Hs as (HD & _); lra).
  eexists _, _, _. unfold main_geometry.
  rewrite shape_valid by exact Hv. unfold bind at 1. unfold ret at 1.
  rewrite layout_pins_ret by lia. unfold bind, ret.
  split; [reflexivity|].
  rewrite !length_map, length_grid, length_seq.
  split; [reflexivity|]. split; [reflexivity|]. split; [reflexivity|].
  intros Hst Hlt.
  pose proof (slider_steps_margin D e N Hst Hlt) as Hm.
  assert (forall t : float, 1 / 12500 <= denominator (D / 2) e N t) as Hd
      by (intros t; now apply denominator_margin).
  split; [exact Hd|].
  split; apply Forall_forall; intros v [t [<- _]]%in_map_iff;
    apply profile_finite; specialize (Hd t); lra.
Qed.

Lemma default_sliders : slider_inputs 100 4 26 (1 / 2).
Proof.
  unfold slider_inputs. repeat split; try lra; try lia.
  eexists. split; [apply eccentricity_max_ret; lra|].
  split; [lra|].
  assert (5 <= Zfloor (100 / 26 / 2 * 10))%Z as H
      by (apply Zfloor_lub; lra).
  apply IZR_le in H. lra.
Qed.

Lemma default_steps : on_slider_steps 100 (1 / 2).
Proof. exists 180%Z, 45%Z. repeat split; try lia; lra. Qed.

Lemma main_geometry_returns_witness :
  exists x y pins,
    main_geometry 100 4 26 (1 / 2) = ret (x, y, pins) /\
    length x = Z.to_nat 10000 /\ length pins = 26%nat /\
    Forall is_finite x /\ Forall is_finite y.
Proof.
  destruct (main_geometry_returns 100 4 26 (1 / 2) default_sliders)
    as (x & y & pins & Hr & Hx & _ & Hp & Hf).
  exists x, y, pins. repeat split; try assumption;
    apply Hf; try apply default_steps; simpl; lra.
Defined.

(** ** The lobes of the disk *)

Lemma lobe_angle_1N (N : Z) (t : R) :
  (2 <= N)%Z ->
  IZR (1 - N) * (t + lobe_angle N) = IZR (1 - N) * t + 2 * IZR (-1) * PI.
Proof.
  intros HN. unfold lobe_angle. pose proof (IZR_pred_pos N HN) as Hp.
  rewrite !minus_IZR in *. field. lra.
Qed.

Lemma lobe_angle_N (N : Z) (t : R) :
  (2 <= N)%Z ->
  IZR N * (t + lobe_angle N) = IZR N * t + lobe_angle N + 2 * IZR 1 * PI.
Proof.
  intros HN. unfold lobe_angle. pose proof (IZR_pred_pos N HN) as Hp.
  rewrite !minus_IZR in *. field. lra.
Qed.

Lemma denominator_lobe (R e : float) (N : Z) (t : float) :
  (2 <= N)%Z ->
  denominator R e N (t + lobe_angle N) = denominator R e N t.
Proof.
  intros HN. unfold denominator.
  now rewrite lobe_angle_1N, cos_turns.
Qed.

Lemma real_phase_lobe (R e : float) (N : Z) (t : float) :
  (2 <= N)%Z ->
  real_phase R e N (t + lobe_angle N) = real_phase R e N t + lobe_angle N.
Proof.
  intros HN. unfold real_phase. rewrite <- !minus_IZR.
  rewrite lobe_angle_1N, cos_turns, sin_turns by assumption. ring.
Qed.

(** X5.  The curve has [N - 1] equal lobes: where the denominator is not
    zero, advancing [t] by a turn divided by [N - 1] turns the point
    about the origin by that angle, clockwise. *)
Theorem profile_lobes (R Rr e : float) (N : Z) (t : float) :
  (2 <= N)%Z -> denominator R e N t <> 0 ->
  exists x y,
    profile_x R Rr e N t = Fin x /\ profile_y R Rr e N t = Fin y /\
    profile_x R Rr e N (t + lobe_angle N)
    = Fin (x * cos (lobe_angle N) + y * sin (lobe_angle N)) /\
    profile_y R Rr e N (t + lobe_angle N)
    = Fin (y * cos (lobe_angle N) - x * sin (lobe_angle N)).
Proof.
  intros HN Hd.
  exists (real_x R Rr e N t), (real_y R Rr e N t).
  assert (denominator R e N (t + lobe_angle N) <> 0) as Hd'
      by now rewrite denominator_lobe.
  rewrite !profile_x_real, !profile_y_real by assumption.
  split; [reflexivity|]. split; [reflexivity|].
  unfold real_x, real_y.
  rewrite real_phase_lobe, lobe_angle_N, cos_turns, sin_turns by assumption.
  rewrite !cos_plus, !sin_plus.
  split; f_equal; ring.
Qed.

Lemma profile_lobes_witness :
  exists x y,
    profile_x 50 2 (1 / 2) 26 1 = Fin x /\ profile_y 50 2 (1 / 2) 26 1 = Fin y /\
    profile_x 50 2 (1 / 2) 26 (1 + lobe_angle 26)
    = Fin (x * cos (lobe_angle 26) + y * sin (lobe_angle 26)) /\
    profile_y 50 2 (1 / 2) 26 (1 + lobe_angle 26)
    = Fin (y * cos (lobe_angle 26) - x * sin (lobe_angle 26)).
Proof.
  apply (profile_lobes 50 2 (1 / 2) 26 1); [lia|].
  apply scenario_denominator.
Defined.

(** ** Where the curve starts, and the smallest numbers of points *)

Lemma real_x_0 (R Rr e : float) (N : Z) : real_x R Rr e N 0 = R - Rr - e.
Proof.
  unfold real_x, real_phase.
  rewrite !Rmult_0_r, sin_0. unfold Rdiv at 1. rewrite Rmult_0_l, atan_0.
  rewrite Rplus_0_r, cos_0. ring.
Qed.

Lemma profile_at_0 (R Rr e : float) (N : Z) :
  e * IZR N <> 0 -> R <> e * IZR N ->
  profile_x R Rr e N 0 = Fin (R - Rr - e) /\ profile_y R Rr e N 0 = Fin 0.
Proof.
  intros He Hr. pose proof (denominator_0_nonzero R e N He Hr) as Hd.
  rewrite profile_x_real, profile_y_real by assumption.
  now rewrite real_x_0, real_y_0.
Qed.

(** X7.  For a valid parameter set with [R <> e * N] the curve starts and
    ends on the x axis, at [(R - Rr - e, 0)]. *)
Theorem profile_start (R Rr e : float) (N num_points : Z) :
  valid R Rr e N num_points -> R <> e * IZR N ->
  exists x y,
    cycloidal_disk_shape R Rr e N num_points = ret (x, y) /\
    nth_error x 0 = Some (Fin (R - Rr - e)) /\
    nth_error y 0 = Some (Fin 0) /\
    nth_error x (Z.to_nat num_points - 1) = Some (Fin (R - Rr - e)) /\
    nth_error y (Z.to_nat num_points - 1) = Some (Fin 0).
Proof.
  intros Hv Hr. pose proof (valid_divisor _ _ _ _ _ Hv) as He.
  assert (2 <= num_points)%Z as Hn by apply Hv.
  destruct (profile_at_0 R Rr e N He Hr) as [Hx Hy].
  exists (map (profile_x R Rr e N) (grid num_points)),
         (map (profile_y R Rr e N) (grid num_points)).
  split; [now apply shape_valid|].
  rewrite !nth_error_profile by lia.
  rewrite sample_t_first, sample_t_last by assumption.
  replace (2 * PI) with (2 * PI - 0) by ring.
  rewrite profile_x_mirror, profile_y_mirror, Hx, Hy. simpl.
  repeat split. do 2 f_equal. ring.
Qed.

Lemma profile_start_witness :
  exists x y,
    cycloidal_disk_shape 50 2 (1 / 2) 26 4 = ret (x, y) /\
    nth_error x 0 = Some (Fin (50 - 2 - 1 / 2)) /\
    nth_error y 0 = Some (Fin 0).
Proof.
  destruct (profile_start 50 2 (1 / 2) 26 4 scenario_valid)
    as (x & y & Hs & Hx & Hy & _); [simpl; lra|].
  exists x, y. repeat split; assumption.
Defined.

Lemma grid_0 : grid 0 = [].
Proof. reflexivity. Qed.

Lemma grid_1 : grid 1 = [0].
Proof.
  unfold grid, linspace_values. simpl. f_equal. ring.
Qed.

(** X8.  With no points asked for, the generator returns two empty arrays;
    with one point, the single sample [t = 0], which is
    [(R - Rr - e, 0)] when [R <> e * N].  Neither raises as long as
    [e * N] is not zero, whatever the signs of the parameters. *)
Theorem profile_few_points (R Rr e : float) (N : Z) :
  e * IZR N <> 0 ->
  cycloidal_disk_shape R Rr e N 0 = ret ([], []) /\
  (R <> e * IZR N ->
   cycloidal_disk_shape R Rr e N 1 = ret ([Fin (R - Rr - e)], [Fin 0])).
Proof.
  intros He. split.
  - rewrite shape_elementwise by (assumption || lia). now rewrite grid_0.
  - intros Hr. rewrite shape_elementwise by (assumption || lia).
    rewrite grid_1. simpl.
    destruct (profile_at_0 R Rr e N He Hr) as [-> ->]. reflexivity.
Qed.

Lemma profile_few_points_witness :
  cycloidal_disk_shape 50 2 (1 / 2) 26 0 = ret ([], []) /\
  cycloidal_disk_shape 50 2 (1 / 2) 26 1
  = ret ([Fin (50 - 2 - 1 / 2)], [Fin 0]).
Proof.
  destruct (profile_few_points 50 2 (1 / 2) 26) as [H0 H1]; [simpl; lra|].
  split; [exact H0|]. apply H1. simpl. lra.
Defined.

(** ** The inner radius *)

(** A vector of length [a] plus two of lengths [b] and [c] is at least
    [a - b - c] long. *)
Lemma three_vectors_lower (a b c u1 v1 u2 v2 u3 v3 : R) :
  0 <= b -> 0 <= c -> b + c <= a ->
  u1 * u1 + v1 * v1 = 1 -> u2 * u2 + v2 * v2 = 1 -> u3 * u3 + v3 * v3 = 1 ->
  (a - b - c) * (a - b - c)
  <= (a * u1 + b * u2 + c * u3) * (a * u1 + b * u2 + c * u3)
     + (a * v1 + b * v2 + c * v3) * (a * v1 + b * v2 + c * v3).
Proof.
  intros Hb Hc Ha H1 H2 H3.
  set (p := b * u2 + c * u3). set (q := b * v2 + c * v3).
  set (m := u1 * p + v1 * q).
  assert (p * p + q * q <= (b + c) * (b + c)) as Hs.
  { pose proof (dot_le_1 _ _ _ _ H2 H3) as D.
    assert (0 <= b * c) as Pbc by now apply Rmult_le_pos.
    pose proof (Rmult_le_compat_l _ _ _ Pbc D) as E.
    unfold p, q.
    replace ((b * u2 + c * u3) * (b * u2 + c * u3)
             + (b * v2 + c * v3) * (b * v2 + c * v3))
      with (b * b * (u2 * u2 + v2 * v2) + c * c * (u3 * u3 + v3 * v3)
            + 2 * (b * c * (u2 * u3 + v2 * v3))) by ring.
    rewrite H2, H3. lra. }
  assert (m * m <= p * p + q * q) as Hcs.
  { pose proof (Rle_0_sqr (u1 * q - v1 * p)) as S. unfold Rsqr in S.
    replace (p * p + q * q) with ((u1 * u1 + v1 * v1) * (p * p + q * q))
      by (rewrite H1; ring).
    unfold m. lra. }
  assert (- (b + c) <= m) as Hm by nra.
  replace ((a * u1 + b * u2 + c * u3) * (a * u1 + b * u2 + c * u3)
           + (a * v1 + b * v2 + c * v3) * (a * v1 + b * v2 + c * v3))
    with (a * a * (u1 * u1 + v1 * v1) + 2 * a * m + (p * p + q * q))
    by (unfold m, p, q; ring).
  rewrite H1. nra.
Qed.

Lemma real_point_inner (R Rr e : float) (N : Z) (t : float) :
  0 <= Rr -> 0 <= e -> Rr + e <= R ->
  (R - Rr - e) * (R - Rr - e)
  <= real_x R Rr e N t * real_x R Rr e N t
     + real_y R Rr e N t * real_y R Rr e N t.
Proof.
  intros HRr He HR. unfold real_x, real_y.
  set (p := real_phase R e N t). set (u := IZR N * t).
  replace (R * cos t - Rr * cos p - e * cos u)
    with (R * cos t + Rr * (- cos p) + e * (- cos u)) by ring.
  replace (- R * sin t + Rr * sin p + e * sin u)
    with (R * (- sin t) + Rr * sin p + e * sin u) by ring.
  apply three_vectors_lower; try assumption.
  - pose proof (unit_cos_sin t). lra.
  - pose proof (unit_cos_sin p). lra.
  - pose proof (unit_cos_sin u). lra.
Qed.

(** X9.  For a valid parameter set, every sample whose denominator is not
    zero lies at least [R - Rr - e] away from the origin: with the
    outer bound, the curve stays in the ring between the radii
    [R - Rr - e] and [R + Rr + e]. *)
Theorem profile_inner_radius (R Rr e : float) (N num_points : Z) (i : nat) :
  valid R Rr e N num_points -> (Z.of_nat i < num_points)%Z ->
  denominator R e N (sample_t num_points i) <> 0 ->
  exists x y xi yi,
    cycloidal_disk_shape R Rr e N num_points = ret (x, y) /\
    nth_error x i = Some (Fin xi) /\ nth_error y i = Some (Fin yi) /\
    R - Rr - e <= sqrt (xi * xi + yi * yi) <= R + Rr + e.
Proof.
  intros Hv Hi Hd. assert (2 <= num_points)%Z as Hn by apply Hv.
  exists (map (profile_x R Rr e N) (grid num_points)),
         (map (profile_y R Rr e N) (grid num_points)),
         (real_x R Rr e N (sample_t num_points i)),
         (real_y R Rr e N (sample_t num_points i)).
  split; [now apply shape_valid|].
  rewrite !nth_error_profile by assumption.
  rewrite profile_x_real, profile_y_real by assumption.
  split; [reflexivity|]. split; [reflexivity|].
  destruct Hv as (HR & HRr & He & _).
  split.
  - destruct (Rle_dec (Rr + e) R) as [Hle|Hgt].
    + rewrite <- (sqrt_square (R - Rr - e)) by lra.
      apply sqrt_le_1_alt, real_point_inner; lra.
    + pose proof (sqrt_pos
        (real_x R Rr e N (sample_t num_points i)
         * real_x R Rr e N (sample_t num_points i)
         + real_y R Rr e N (sample_t num_points i)
           * real_y R Rr e N (sample_t num_points i))).
      lra.
  - apply norm_bounds; [lra|]. apply real_point_bounded; lra.
Qed.

Lemma profile_inner_radius_witness :
  exists x y xi yi,
    cycloidal_disk_shape 50 2 (1 / 2) 26 4 = ret (x, y) /\
    nth_error x 2 = Some (Fin xi) /\ nth_error y 2 = Some (Fin yi) /\
    50 - 2 - 1 / 2 <= sqrt (xi * xi + yi * yi) <= 50 + 2 + 1 / 2.
Proof.
  apply (profile_inner_radius 50 2 (1 / 2) 26 4 2 scenario_valid); [lia|].
  apply scenario_denominator.
Defined.

(** ** More on the outer pins *)

Lemma layout_pins_negative (R dp : float) (N : Z) :
  (N < 0)%Z -> layout_pins R dp N = inl ValueError.
Proof.
  intros HN. unfold layout_pins, pin_angles, linspace.
  now destruct (Z.ltb_spec N 0); [|lia].
Qed.

Lemma layout_pins_none (R dp : float) : layout_pins R dp 0 = ret [].
Proof. reflexivity. Qed.

(** X10.  The pin loop never runs past the arrays it indexes.  For a negative
    N the layout raises [ValueError], from [linspace]; for every other
    N it returns exactly N circles, each of radius [dp / 2] with a
    finite centre, for any R and dp. *)
Theorem layout_pins_cases (R dp : float) (N : Z) :
  ((N < 0)%Z -> layout_pins R dp N = inl ValueError) /\
  ((0 <= N)%Z ->
   exists pins,
     layout_pins R dp N = ret pins /\ length pins = Z.to_nat N /\
     Forall (fun c => circle_radius c = dp / 2 /\
                      is_finite (circle_x c) /\ is_finite (circle_y c))
            pins).
Proof.
  split; [apply layout_pins_negative|].
  intros HN. destruct (Z.eq_dec N 0) as [->|Hnz].
  - exists []. repeat split. constructor.
  - eexists. split; [apply layout_pins_ret; lia|].
    rewrite length_map, length_seq. split; [reflexivity|].
    apply Forall_forall. intros c [i [<- _]]%in_map_iff. simpl. tauto.
Qed.

Lemma layout_pins_cases_witness :
  layout_pins 50 4 (-3) = inl ValueError /\
  exists pins, layout_pins 50 4 0 = ret pins /\ length pins = 0%nat.
Proof.
  split.
  - apply (proj1 (layout_pins_cases 50 4 (-3))). lia.
  - destruct (proj2 (layout_pins_cases 50 4 0)) as (pins & Hp & Hl & _); [lia|].
    exists pins. split; assumption.
Defined.

Lemma chord_square (a b : R) :
  (cos b - cos a) * (cos b - cos a) + (sin b - sin a) * (sin b - sin a)
  = (2 * sin ((b - a) / 2)) * (2 * sin ((b - a) / 2)).
Proof.
  pose proof (cos_2a_sin ((b - a) / 2)) as H2.
  replace (2 * ((b - a) / 2)) with (b - a) in H2 by field.
  rewrite cos_minus in H2.
  pose proof (unit_cos_sin a). pose proof (unit_cos_sin b). nra.
Qed.

(** X11.  The centres of pins [i] and [j] are [2 R |sin ((a_j - a_i) / 2)|]
    apart, [a_i] and [a_j] being their angles; for neighbours that is
    the chord [2 R sin (PI / N)]. *)
Theorem pin_spacing (R dp : float) (N : Z) (i j : nat) :
  0 < R -> (1 <= N)%Z -> (Z.of_nat i < N)%Z -> (Z.of_nat j < N)%Z ->
  exists pins xi yi xj yj,
    layout_pins R dp N = ret pins /\
    nth_error pins i = Some (Circle (Fin xi) (Fin yi) (dp / 2)) /\
    nth_error pins j = Some (Circle (Fin xj) (Fin yj) (dp / 2)) /\
    sqrt ((xj - xi) * (xj - xi) + (yj - yi) * (yj - yi))
    = 2 * R * Rabs (sin ((pin_angle N j - pin_angle N i) / 2)) /\
    ((j = S i)%nat ->
     sqrt ((xj - xi) * (xj - xi) + (yj - yi) * (yj - yi))
     = 2 * R * sin (PI / IZR N)).
Proof.
  intros HR HN Hi Hj.
  assert (sqrt ((0 + R * cos (pin_angle N j) - (0 + R * cos (pin_angle N i)))
                * (0 + R * cos (pin_angle N j) - (0 + R * cos (pin_angle N i)))
                + (0 + R * sin (pin_angle N j) - (0 + R * sin (pin_angle N i)))
                  * (0 + R * sin (pin_angle N j) - (0 + R * sin (pin_angle N i))))
          = 2 * R * Rabs (sin ((pin_angle N j - pin_angle N i) / 2))) as Hd.
  { set (a := pin_angle N i). set (b := pin_angle N j).
    replace ((0 + R * cos b - (0 + R * cos a)) * (0 + R * cos b - (0 + R * cos a))
             + (0 + R * sin b - (0 + R * sin a)) * (0 + R * sin b - (0 + R * sin a)))
      with (R * R * ((cos b - cos a) * (cos b - cos a)
                     + (sin b - sin a) * (sin b - sin a))) by ring.
    rewrite chord_square.
    replace (R * R * (2 * sin ((b - a) / 2) * (2 * sin ((b - a) / 2))))
      with (Rsqr (2 * R * sin ((b - a) / 2))) by (unfold Rsqr; ring).
    rewrite sqrt_Rsqr_abs, Rabs_mult. f_equal. apply Rabs_right. lra. }
  eexists _, _, _, _, _. split; [now apply layout_pins_ret|].
  rewrite !nth_error_map, !nth_error_seq by lia. simpl.
  split; [reflexivity|]. split; [reflexivity|]. split; [exact Hd|].
  intros ->. rewrite Hd. f_equal.
  pose proof (IZR_pos N HN) as Hp. pose proof PI_RGT_0 as Hpi.
  replace ((pin_angle N (S i) - pin_angle N i) / 2) with (PI / IZR N)
    by (unfold pin_angle; rewrite S_INR; field; lra).
  apply Rabs_right, Rle_ge, sin_ge_0.
  - apply Rlt_le, Rdiv_lt_0_compat; lra.
  - apply Rmult_le_reg_r with (IZR N); [assumption|].
    unfold Rdiv. rewrite Rmult_assoc, Rinv_l by lra.
    assert (1 <= IZR N) by (apply IZR_le; lia). nra.
Qed.

Lemma pin_spacing_witness :
  exists pins xi yi xj yj,
    layout_pins 50 4 4 = ret pins /\
    nth_error pins 0 = Some (Circle (Fin xi) (Fin yi) (4 / 2)) /\
    nth_error pins 1 = Some (Circle (Fin xj) (Fin yj) (4 / 2)) /\
    sqrt ((xj - xi) * (xj - xi) + (yj - yi) * (yj - yi))
    = 2 * 50 * sin (PI / 4).
Proof.
  destruct (pin_spacing 50 4 4 0 1)
    as (pins & xi & yi & xj & yj & Hp & H0 & H1 & _ & Hs);
    [lra | lia | lia | lia |].
  exists pins, xi, yi, xj, yj. repeat split; try assumption.
  now apply Hs.
Defined.

(** ** More on the derived outputs *)

Module RoundingFacts.

Import Derived.
Local Open Scope Q_scope.

Lemma py_round_mono (q q' : Q) :
  q <= q' -> (py_round q <= py_round q')%Z.
Proof.
  intros Hq. unfold py_round.
  pose proof (Qfloor_resp_le q q' Hq) as Hf.
  pose proof (Qfloor_le q) as L. pose proof (Qlt_floor q) as U.
  pose proof (Qfloor_le q') as L'. pose proof (Qlt_floor q') as U'.
  rewrite inject_Z_plus in U, U'. change (inject_Z 1) with 1 in U, U'.
  destruct (Z.eq_dec (Qfloor q) (Qfloor q')) as [E|NE].
  - rewrite <- E in *.
    destruct (Qcompare_spec (q - inject_Z (Qfloor q)) (1 # 2));
      destruct (Qcompare_spec (q' - inject_Z (Qfloor q)) (1 # 2));
      destruct (Z.even (Qfloor q)); try lia; exfalso; lra.
  - assert (Qfloor q + 1 <= Qfloor q')%Z by lia.
    destruct (Qcompare_spec (q - inject_Z (Qfloor q)) (1 # 2));
      destruct (Qcompare_spec (q' - inject_Z (Qfloor q')) (1 # 2));
      destruct (Z.even (Qfloor q)); destruct (Z.even (Qfloor q')); lia.
Qed.

Lemma py_round_whole (q : Q) (k : Z) : q == inject_Z k -> py_round q = k.
Proof.
  intros Hq. unfold py_round.
  assert (Qfloor q = k) as -> by (rewrite Hq; apply Qfloor_Z).
  destruct (Qcompare_spec (q - inject_Z k) (1 # 2)); try reflexivity;
    exfalso; lra.
Qed.

Lemma thousandths (r : Q) : r / 1000 == r * (1 # 1000).
Proof. reflexivity. Qed.

(** X12.  The disk hole diameter never decreases when the drive pin diameter
    or the eccentricity grows; the rounding can keep it constant. *)
Theorem disk_hole_monotone (drp drp' e e' : Q) :
  drp <= drp' -> e <= e' ->
  disk_hole_diameter drp e <= disk_hole_diameter drp' e'.
Proof.
  intros Hd He. unfold disk_hole_diameter.
  assert ((drp + 2 * e) * 1000 <= (drp' + 2 * e') * 1000) as H by lra.
  apply py_round_mono in H. rewrite Zle_Qle in H.
  rewrite !thousandths. lra.
Qed.

Lemma disk_hole_monotone_witness :
  disk_hole_diameter (3333 # 100) (1 # 2)
  <= disk_hole_diameter (3334 # 100) (6 # 10).
Proof.
  apply (disk_hole_monotone (3333 # 100) (3334 # 100) (1 # 2) (6 # 10));
    unfold Qle; simpl; lia.
Defined.

(** X13.  When [drp + 2 e] is a whole number of thousandths, the disk hole
    diameter is that sum exactly. *)
Theorem disk_hole_exact (drp e : Q) (k : Z) :
  (drp + 2 * e) * 1000 == inject_Z k ->
  disk_hole_diameter drp e == drp + 2 * e.
Proof.
  intros Hk. unfold disk_hole_diameter.
  rewrite (py_round_whole _ k Hk), thousandths. lra.
Qed.

Lemma disk_hole_exact_witness :
  disk_hole_diameter (3333 # 100) (1 # 2) == (3333 # 100) + 2 * (1 # 2).
Proof.
  apply (disk_hole_exact (3333 # 100) (1 # 2) 34330). reflexivity.
Defined.

End RoundingFacts.

(** ** The equations written under the plot *)

Module DisplayFacts.

Import Display.
Local Open Scope Q_scope.

Lemma py_int_opp (q : Q) : py_int (- q) = (- py_int q)%Z.
Proof.
  unfold py_int, Qceiling.
  destruct (Qle_bool 0 q) eqn:Hq; destruct (Qle_bool 0 (- q)) eqn:Hn.
  - apply Qle_bool_iff in Hq, Hn.
    assert (q == 0) as H0 by lra.
    assert (- q == 0) as H0' by lra.
    rewrite (Qfloor_comp _ _ H0), (Qfloor_comp _ _ H0'). reflexivity.
  - f_equal. apply Qfloor_comp. ring.
  - lia.
  - exfalso.
    assert (~ 0 <= q) as A by (rewrite <- Qle_bool_iff; congruence).
    assert (~ 0 <= - q) as B by (rewrite <- Qle_bool_iff; congruence).
    lra.
Qed.

(** X14.  The equations carry the radius cut down to a whole number: for
    [R >= 0] the number shown is at most R and less than one below it,
    it is R only when R is whole, and the coefficient shown in the
    equation of [y] is its opposite. *)
Theorem shown_radius (R : Q) :
  0 <= R ->
  inject_Z (shown_R R) <= R /\ R < inject_Z (shown_R R) + 1 /\
  shown_minus_R R = (- shown_R R)%Z /\
  (inject_Z (shown_R R) == R <-> exists k : Z, R == inject_Z k).
Proof.
  intros HR. unfold shown_minus_R, shown_R.
  rewrite py_int_opp. unfold py_int.
  apply Qle_bool_iff in HR. rewrite HR.
  pose proof (Qfloor_le R) as L. pose proof (Qlt_floor R) as U.
  rewrite inject_Z_plus in U. change (inject_Z 1) with 1 in U.
  repeat split; try assumption.
  - intros H. exists (Qfloor R). now symmetry.
  - intros [k Hk]. rewrite Hk at 1. now rewrite Qfloor_Z.
Qed.

Lemma shown_radius_witness :
  inject_Z (shown_R (25 # 2)) <= 25 # 2 /\
  25 # 2 < inject_Z (shown_R (25 # 2)) + 1 /\
  shown_minus_R (25 # 2) = (- shown_R (25 # 2))%Z.
Proof.
  destruct (shown_radius (25 # 2)) as (H1 & H2 & H3 & _).
  - unfold Qle; simpl; lia.
  - repeat split; assumption.
Defined.

End DisplayFacts.

(** ** The largest eccentricity the slider allows *)

(** X4.  When the eccentricity is a whole number of quarters, a value
    the program holds without rounding, and the sliders give
    [e * N = R] exactly, [main] still computes its geometry, and the
    curve it plots starts with a NaN point. *)
Theorem main_geometry_nan_start (D dp : float) (N : Z) (e : float) :
  slider_inputs D dp N e -> (exists k : Z, e = IZR k / 4) ->
  e * IZR N = D / 2 ->
  exists x y pins,
    main_geometry D dp N e = ret (x, y, pins) /\
    nth_error x 0 = Some NaN /\ nth_error y 0 = Some NaN.
Proof.
  intros Hs _ He. destruct (slider_valid _ _ _ _ Hs) as [Hv _].
  assert (2 <= N)%Z as HN by apply Hv.
  pose proof (valid_divisor _ _ _ _ _ Hv) as Hnz.
  eexists _, _, _. unfold main_geometry.
  rewrite shape_valid by exact Hv. unfold bind at 1. unfold ret at 1.
  rewrite layout_pins_ret by lia. unfold bind, ret.
  split; [reflexivity|].
  rewrite !nth_error_profile by lia. rewrite sample_t_first.
  destruct (profile_nan (D / 2) (dp / 2) e N 0) as [-> ->].
  - rewrite denominator_0, <- He. unfold Rdiv. rewrite Rinv_r by assumption.
    ring.
  - now rewrite Rmult_0_r, sin_0.
  - now split.
Qed.

Lemma full_eccentricity_sliders : slider_inputs 100 4 50 1.
Proof.
  unfold slider_inputs. repeat split; try lra; try lia.
  eexists. split; [apply eccentricity_max_ret; lra|].
  split; [lra|].
  assert (10 <= Zfloor (100 / 50 / 2 * 10))%Z as H
      by (apply Zfloor_lub; lra).
  apply IZR_le in H. lra.
Qed.

Lemma main_geometry_nan_start_witness :
  exists x y pins,
    main_geometry 100 4 50 1 = ret (x, y, pins) /\
    nth_error x 0 = Some NaN /\ nth_error y 0 = Some NaN.
Proof.
  apply (main_geometry_nan_start 100 4 50 1 full_eccentricity_sliders).
  - exists 4%Z. lra.
  - simpl. lra.
Defined.

(** ** One turn of the parameter *)

Lemma real_phase_period (R e : float) (N : Z) (t : float) :
  real_phase R e N (t + 2 * PI) = real_phase R e N t + 2 * IZR 1 * PI.
Proof.
  unfold real_phase. rewrite <- !minus_IZR.
  replace (IZR (1 - N) * (t + 2 * PI))
    with (IZR (1 - N) * t + 2 * IZR (1 - N) * PI) by ring.
  rewrite cos_turns, sin_turns. ring.
Qed.

(** X6.  In exact real arithmetic the formula has period [2 PI] in [t]
    wherever the denominator is not zero, for every integer N. *)
Theorem profile_period (R Rr e : float) (N : Z) (t : float) :
  denominator R e N t <> 0 ->
  exists x y,
    profile_x R Rr e N t = Fin x /\ profile_y R Rr e N t = Fin y /\
    profile_x R Rr e N (t + 2 * PI) = Fin x /\
    profile_y R Rr e N (t + 2 * PI) = Fin y.
Proof.
  intros Hd.
  assert (denominator R e N (t + 2 * PI) <> 0) as Hd'.
  { unfold denominator in *.
    replace (IZR (1 - N) * (t + 2 * PI))
      with (IZR (1 - N) * t + 2 * IZR (1 - N) * PI) by ring.
    now rewrite cos_turns. }
  exists (real_x R Rr e N t), (real_y R Rr e N t).
  rewrite !profile_x_real, !profile_y_real by assumption.
  split; [reflexivity|]. split; [reflexivity|].
  unfold real_x, real_y. rewrite real_phase_period.
  replace (IZR N * (t + 2 * PI)) with (IZR N * t + 2 * IZR N * PI) by ring.
  replace (t + 2 * PI) with (t + 2 * IZR 1 * PI) by ring.
  rewrite !cos_turns, !sin_turns. split; reflexivity.
Qed.

Lemma profile_period_witness :
  exists x y,
    profile_x 50 2 (1 / 2) 26 1 = Fin x /\ profile_y 50 2 (1 / 2) 26 1 = Fin y /\
    profile_x 50 2 (1 / 2) 26 (1 + 2 * PI) = Fin x /\
    profile_y 50 2 (1 / 2) 26 (1 + 2 * PI) = Fin y.
Proof.
  apply (profile_period 50 2 (1 / 2) 26 1). apply scenario_denominator.
Defined.
